(** * RUM-SpeedIndex: a shallow embedding of [src/rum-speedindex.js]

    The script computes the Speed Index of a loaded page from the browser's
    telemetry.  Its five stages ([GetRects], [GetRectTimings],
    [GetFirstPaint], [CalculateVisualProgress], [CalculateSpeedIndex]) run
    once, in that order, inside one [try] block and communicate through the
    closure variables [rects], [progress], [firstPaint] and [SpeedIndex].
    Here every stage is a function from the values it reads to the values
    it writes, and the host objects it queries ([window], [document],
    [window.performance], [window.chrome]) are the fields of one record,
    [Window].

    Conventions of the embedding.
    - A JavaScript number is an exact rational ([Qc]): arithmetic does not
      round or overflow, and every numeric field of the host is a finite
      number.  [undefined] is [None] of an [option].
    - A JavaScript string is a [string]; a regular expression's
      [lastIndex] counts its characters.
    - An object used as a dictionary is a [gmap].  Keys that are page URLs
      are strings; the keys of [paints] are numbers converted to strings,
      and as that conversion is injective the number itself is the key.
      Look-ups never reach [Object.prototype], since no URL and no number
      is spelled like one of its properties.
    - An exception inside the [try] block leaves [SpeedIndex] undefined:
      the result of the whole script is an [option Qc]. *)

From Stdlib Require Import QArith Qcanon Lqa Ascii String.
From stdpp Require Import base decidable option numbers list sorting
  fin_maps gmap strings.

Local Open Scope string_scope.
Local Open Scope Qc_scope.

(** ** JavaScript values *)

Module JS.

(** [ToBoolean] of a number that may be [undefined]. *)
Definition truthy (x : option Qc) : bool :=
  match x with
  | Some q => bool_decide (q ≠ 0)
  | None => false
  end.

(** [ToBoolean] of a string. *)
Definition truthy_str (s : string) : bool := bool_decide (s ≠ "").

(** [a || b] where [b] is a number. *)
Definition or_else (a : option Qc) (b : Qc) : Qc :=
  match a with
  | Some q => if bool_decide (q ≠ 0) then q else b
  | None => b
  end.

(** [Math.max] and [Math.min] on numbers. *)
Definition max (a b : Qc) : Qc := if decide (a ≤ b) then b else a.
Definition min (a b : Qc) : Qc := if decide (a ≤ b) then a else b.

End JS.

(** ** The regular expression of [GetRects]

    The pattern of [re] is: the text "url(", a group made of "http" and
    any characters of the line, as many as possible, then a closing
    parenthesis; the flags are [i] (ignore case) and [g] (global).  With
    the [g] flag [re.exec(str)] starts
    at [re.lastIndex]; a match leaves [lastIndex] just behind the matched
    text, a failure resets it to [0].  The same [re] object serves every
    element of the walk, so [lastIndex] is threaded through the loop. *)

Module RegExp.

Definition lower (c : ascii) : ascii :=
  let n := nat_of_ascii c in
  if bool_decide (65 ≤ n ≤ 90)%nat then ascii_of_nat (n + 32) else c.

(** Does [s] start with the (lower-case) pattern text, ignoring case? *)
Fixpoint starts_with_ci (pat s : list ascii) : bool :=
  match pat, s with
  | [], _ => true
  | _ :: _, [] => false
  | p :: pat', c :: s' => bool_decide (lower c = p) && starts_with_ci pat' s'
  end.

(** [.] matches every character but a line terminator. *)
Definition line_terminator (c : ascii) : bool :=
  bool_decide (nat_of_ascii c = 10%nat) || bool_decide (nat_of_ascii c = 13%nat).

Fixpoint line (s : list ascii) : list ascii :=
  match s with
  | [] => []
  | c :: s' => if line_terminator c then [] else c :: line s'
  end.

(** Index of the last [")"] of [s]: where the greedy [.*] stops. *)
Fixpoint last_paren (s : list ascii) : option nat :=
  match s with
  | [] => None
  | c :: s' =>
      match last_paren s' with
      | Some j => Some (S j)
      | None => if bool_decide (c = ")"%char) then Some 0%nat else None
      end
  end.

(** A match that starts at the head of [s]: the captured group and the
    length of the matched text. *)
Definition match_here (s : list ascii) : option (list ascii * nat) :=
  if starts_with_ci (list_ascii_of_string "url(http") s then
    let body := line (drop 8 s) in
    match last_paren body with
    | Some j => Some ((take 4 (drop 4 s) ++ take j body)%list, (8 + j + 1)%nat)
    | None => None
    end
  else None.

(** The leftmost match in [s], which is the subject from index [i] on:
    the group and the index just behind the match. *)
Fixpoint search (s : list ascii) (i : nat) : option (list ascii * nat) :=
  match match_here s with
  | Some (g, len) => Some (g, (i + len)%nat)
  | None =>
      match s with
      | [] => None
      | _ :: s' => search s' (S i)
      end
  end.

(** [re.exec(str)] at [lastIndex]: [matches[1]] (if any) and the new
    [lastIndex]. *)
Definition exec (lastIndex : nat) (str : string) : option string * nat :=
  let s := list_ascii_of_string str in
  if decide (length s < lastIndex)%nat then (None, 0%nat)
  else
    match search (drop lastIndex s) lastIndex with
    | Some (g, e) => (Some (string_of_list_ascii g), e)
    | None => (None, 0%nat)
    end.

End RegExp.

(** ** The host: what the script reads *)

(** [el.getBoundingClientRect()]. *)
Record ClientRect := {
  cr_top : Qc; cr_left : Qc; cr_bottom : Qc; cr_right : Qc
}.

(** An element of [document.getElementsByTagName('*')]: its tag, its
    [src], its computed [background-image] and its bounding rectangle
    ([None] where [getBoundingClientRect] is missing). *)
Record Element := {
  el_tagName : string;
  el_src : string;
  el_background_image : string;
  el_boundingClientRect : option ClientRect
}.

(** A child of the document's [head]. *)
Record HeadElement := {
  he_tagName : string;
  he_src : string;
  he_async : bool;
  he_rel : string;
  he_href : string
}.

(** An entry of [window.performance.getEntriesByType("resource")]. *)
Record ResourceEntry := {
  re_name : string;
  re_responseEnd : Qc;
  re_initiatorType : string
}.

(** [window.chrome.loadTimes()]. *)
Record ChromeTimes := {
  ct_firstPaintTime : option Qc;
  ct_startLoadTime : option Qc;
  ct_requestTime : option Qc
}.

Record Window := {
  innerWidth : option Qc;
  innerHeight : option Qc;
  clientWidth : Qc;              (* document.documentElement.clientWidth *)
  clientHeight : Qc;             (* document.documentElement.clientHeight *)
  elements : list Element;       (* document.getElementsByTagName('*') *)
  head : list HeadElement;       (* document.getElementsByTagName('head')[0].children *)
  navigationStart : Qc;          (* window.performance.timing[...] *)
  responseStart : Qc;
  msFirstPaint : option Qc;
  chrome_loadTimes : option ChromeTimes;
  (* window.performance.getEntriesByType("resource"); [None] in a browser
     without Resource Timing, where the call throws *)
  resources : option (list ResourceEntry)
}.

(** ** What the script builds *)

(** The object [intersect] of [GetElementViewportRect]. *)
Record Intersect := {
  i_top : Qc; i_left : Qc; i_bottom : Qc; i_right : Qc; i_area : Qc
}.

(** An entry of [rects]; [GetRectTimings] adds [tm]. *)
Record Rect := {
  r_url : string;
  r_area : Qc;
  r_rect : Intersect;
  r_tm : option Qc
}.

(** An entry of [progress]. *)
Record Progress := {
  p_tm : Qc;
  p_area : Qc;
  p_progress : Qc
}.

(** ** Support routines *)

(** [window.innerHeight || document.documentElement.clientHeight] and the
    same for the width: the viewport the rectangles are clipped to. *)
Definition viewportHeight (w : Window) : Qc := JS.or_else (innerHeight w) (clientHeight w).
Definition viewportWidth (w : Window) : Qc := JS.or_else (innerWidth w) (clientWidth w).

Definition GetElementViewportRect (w : Window) (el : Element) : option Intersect :=
  match el_boundingClientRect el with
  | None => None
  | Some elRect =>
      let top := JS.max (cr_top elRect) 0 in
      let left := JS.max (cr_left elRect) 0 in
      let bottom := JS.min (cr_bottom elRect) (viewportHeight w) in
      let right := JS.min (cr_right elRect) (viewportWidth w) in
      if bool_decide (bottom ≤ top) || bool_decide (right ≤ left) then None
      else Some {| i_top := top; i_left := left; i_bottom := bottom;
                   i_right := right;
                   i_area := (bottom - top) * (right - left) |}
  end.

(** [CheckElement] pushes onto [rects]. *)
Definition CheckElement (w : Window) (el : Element) (url : string)
    (rects : list Rect) : list Rect :=
  if JS.truthy_str url then
    match GetElementViewportRect w el with
    | Some rect =>
        (rects ++ [{| r_url := url; r_area := i_area rect; r_rect := rect;
                      r_tm := None |}])%list
    | None => rects
    end
  else rects.

(** One turn of the loop of [GetRects], on the pair of [re.lastIndex] and
    [rects]. *)
Definition GetRects_step (w : Window) (st : nat * list Rect) (el : Element)
    : nat * list Rect :=
  let '(lastIndex, rects) := st in
  let rects :=
    if bool_decide (el_tagName el = "IMG") then CheckElement w el (el_src el) rects
    else rects in
  if JS.truthy_str (el_background_image el) then
    match RegExp.exec lastIndex (el_background_image el) with
    | (Some url, lastIndex') => (lastIndex', CheckElement w el url rects)
    | (None, lastIndex') => (lastIndex', rects)
    end
  else (lastIndex, rects).

Definition GetRects (w : Window) : list Rect :=
  snd (foldl (GetRects_step w) (0%nat, []) (elements w)).

(** The dictionary [timings] of [GetRectTimings]: a later entry of the
    same name overwrites an earlier one. *)
Definition timings_of (requests : list ResourceEntry) : gmap string Qc :=
  foldl (λ timings r, <[re_name r := re_responseEnd r]> timings) ∅ requests.

Definition set_tm (timings : gmap string Qc) (r : Rect) : Rect :=
  {| r_url := r_url r; r_area := r_area r; r_rect := r_rect r;
     r_tm := Some (match timings !! r_url r with
                   | Some t => t
                   | None => 0
                   end) |}.

Definition GetRectTimings (requests : list ResourceEntry) (rects : list Rect)
    : list Rect :=
  set_tm (timings_of requests) <$> rects.

(** ** First paint *)

(** Lines 122-123: the browser's own first-paint time, when it is truthy. *)
Definition firstPaint_native (w : Window) (firstPaint : option Qc) : option Qc :=
  match msFirstPaint w with
  | Some m => if bool_decide (m ≠ 0) then Some (m - navigationStart w) else firstPaint
  | None => firstPaint
  end.

(** The reference point of the Chrome branch (lines 127-129). *)
Definition chrome_startTime (chromeTimes : ChromeTimes) : option Qc :=
  if JS.truthy (ct_requestTime chromeTimes) then ct_requestTime chromeTimes
  else ct_startLoadTime chromeTimes.

(** Lines 124-133: [window.chrome.loadTimes()], when it is there. *)
Definition firstPaint_chrome (w : Window) (firstPaint : option Qc) : option Qc :=
  match chrome_loadTimes w with
  | Some chromeTimes =>
      match ct_firstPaintTime chromeTimes with
      | Some firstPaintTime =>
          if bool_decide (0 < firstPaintTime) then
            match chrome_startTime chromeTimes with
            | Some startTime =>
                if bool_decide (startTime ≤ firstPaintTime) then
                  Some ((firstPaintTime - startTime) * Qc_of_Z 1000)
                else firstPaint
            | None => firstPaint   (* [>= undefined] is false *)
            end
          else firstPaint
      | None => firstPaint
      end
  | None => firstPaint
  end.

(** Lines 140-146: the set of URLs of the blocking scripts and style
    sheets of the head ([headURLs[...] = true]). *)
Definition headURLs_step (headURLs : gset string) (el : HeadElement) : gset string :=
  let headURLs :=
    if bool_decide (he_tagName el = "SCRIPT") && JS.truthy_str (he_src el)
       && negb (he_async el)
    then {[he_src el]} ∪ headURLs else headURLs in
  if bool_decide (he_tagName el = "LINK") && bool_decide (he_rel el = "stylesheet")
     && JS.truthy_str (he_href el)
  then {[he_href el]} ∪ headURLs else headURLs.

Definition headURLs_of (headElements : list HeadElement) : gset string :=
  foldl headURLs_step ∅ headElements.

(** One turn of the loop of lines 149-159 on [(doneCritical, firstPaint)].
    [firstPaint] is a number here (line 137 has assigned it), so the test
    [firstPaint == undefined] of line 154 is false. *)
Definition critical_step (headURLs : gset string) (st : bool * Qc)
    (r : ResourceEntry) : bool * Qc :=
  let '(doneCritical, firstPaint) := st in
  if negb doneCritical && bool_decide (re_name r ∈ headURLs)
     && (bool_decide (re_initiatorType r = "script")
         || bool_decide (re_initiatorType r = "link"))
  then
    let requestEnd := re_responseEnd r in
    (doneCritical,
     if bool_decide (firstPaint < requestEnd) then requestEnd else firstPaint)
  else (true, firstPaint).

(** Lines 136-160: the estimate from the head's critical resources. *)
Definition firstPaint_fallback (w : Window) (requests : list ResourceEntry) : Qc :=
  snd (foldl (critical_step (headURLs_of (head w)))
             (false, responseStart w - navigationStart w) requests).

(** [GetFirstPaint] starts from [firstPaint = undefined]; the two signal
    branches run one after the other, and the fallback runs when neither
    has assigned [firstPaint]. *)
Definition GetFirstPaint (w : Window) (requests : list ResourceEntry) : Qc :=
  match firstPaint_chrome w (firstPaint_native w None) with
  | Some firstPaint => firstPaint
  | None => firstPaint_fallback w requests
  end.

(** ** Visual progress *)

Definition pageBackgroundWeight : Qc := Q2Qc (1 # 10).

(** [if (paints[tm] === undefined) paints[tm] = 0; paints[tm] += area]. *)
Definition paints_add (tm area : Qc) (paints : gmap Qc Qc) : gmap Qc Qc :=
  <[tm := default 0 (paints !! tm) + area]> paints.

(** Lines 169-171: the time at which a rectangle counts as painted. *)
Definition paint_tm (firstPaint : Qc) (r : Rect) : Qc :=
  match r_tm r with
  | Some tm =>
      if JS.truthy (Some tm) && bool_decide (firstPaint < tm) then tm
      else firstPaint
  | None => firstPaint
  end.

(** One turn of the loop of lines 168-176 on [(paints, total)]. *)
Definition paint_step (firstPaint : Qc) (st : gmap Qc Qc * Qc) (r : Rect)
    : gmap Qc Qc * Qc :=
  let '(paints, total) := st in
  (paints_add (paint_tm firstPaint r) (r_area r) paints, total + r_area r).

(** Lines 179-180. *)
Definition page_pixels (w : Window) : Qc :=
  JS.max (clientWidth w) (JS.or_else (innerWidth w) 0)
  * JS.max (clientHeight w) (JS.or_else (innerHeight w) 0).

(** Lines 181-187: the paint area of the page background. *)
Definition paint_background (firstPaint pixels : Qc) (st : gmap Qc Qc * Qc)
    : gmap Qc Qc * Qc :=
  let '(paints, total) := st in
  if bool_decide (0 < pixels) then
    let pixels := JS.max (pixels - total) 0 * pageBackgroundWeight in
    (paints_add firstPaint pixels paints, total + pixels)
  else st.

(** [paints] and [total] as line 188 finds them. *)
Definition paints_total (w : Window) (rects : list Rect) (firstPaint : Qc)
    : gmap Qc Qc * Qc :=
  paint_background firstPaint (page_pixels w)
    (foldl (paint_step firstPaint) ({[0 := 0]}, 0) rects).

(** The comparison function of [progress.sort], on the entries
    [{tm, area}], and the order it sorts by. *)
Definition compare_tm (a b : Qc * Qc) : Qc := a.1 - b.1.
Definition tm_before (a b : Qc * Qc) : Prop := compare_tm a b ≤ 0.

Global Instance tm_before_dec : RelDecision tm_before.
Proof. intros a b. unfold tm_before. apply _. Defined.

(** Lines 193-197: the running sum of the areas over [total]. *)
Fixpoint accumulate (total accumulated : Qc) (l : list (Qc * Qc)) : list Progress :=
  match l with
  | [] => []
  | (tm, area) :: l' =>
      let accumulated := accumulated + area in
      {| p_tm := tm; p_area := area; p_progress := accumulated / total |}
        :: accumulate total accumulated l'
  end.

(** The entries of [paints], sorted by [tm].  The keys of [paints] are
    distinct, so the order in which [for (var tm in paints)] visits them
    does not show after the sort. *)
Definition sorted_paints (paints : gmap Qc Qc) : list (Qc * Qc) :=
  merge_sort tm_before (map_to_list paints).

Definition CalculateVisualProgress (w : Window) (rects : list Rect)
    (firstPaint : Qc) : list Progress :=
  let '(paints, total) := paints_total w rects firstPaint in
  if bool_decide (total ≠ 0) then accumulate total 0 (sorted_paints paints)
  else [].

(** ** Speed index *)

(** One turn of the loop of lines 207-213 on
    [(SpeedIndex, lastTime, lastProgress)]. *)
Definition integrate_step (st : Qc * Qc * Qc) (p : Progress) : Qc * Qc * Qc :=
  let '(SpeedIndex, lastTime, lastProgress) := st in
  let elapsed := p_tm p - lastTime in
  (if bool_decide (0 < elapsed) && bool_decide (lastProgress < 1)
   then SpeedIndex + (1 - lastProgress) * elapsed else SpeedIndex,
   p_tm p, p_progress p).

Definition integrate (st : Qc * Qc * Qc) (progress : list Progress) : Qc :=
  (foldl integrate_step st progress).1.1.

Definition CalculateSpeedIndex (progress : list Progress) (firstPaint : Qc) : Qc :=
  match progress with
  | [] => firstPaint
  | _ :: _ => integrate (0, 0, 0) progress
  end.

(** ** Main flow

    [GetRectTimings] is the first stage to call
    [window.performance.getEntriesByType]; where that throws, the [catch]
    leaves [SpeedIndex] undefined. *)
Definition RUMSpeedIndex (w : Window) : option Qc :=
  requests ← resources w;
  let rects := GetRectTimings requests (GetRects w) in
  let firstPaint := GetFirstPaint w requests in
  let progress := CalculateVisualProgress w rects firstPaint in
  Some (CalculateSpeedIndex progress firstPaint).

(** * Properties *)

(** ** Arithmetic on [Qc]

    Goals about [Qc] are moved to [Q], where [lra] and [nra] decide them. *)

Lemma Qc_eq_Q (x y : Qc) : x = y ↔ (this x == this y)%Q.
Proof. split; [intros ->; reflexivity | apply Qc_is_canon]. Qed.

Lemma Qc_ne_Q (x y : Qc) : x ≠ y ↔ ¬ (this x == this y)%Q.
Proof. rewrite Qc_eq_Q. tauto. Qed.

Ltac qc_to_q :=
  repeat match goal with
  | H : @eq Qc _ _ |- _ => apply Qc_eq_Q in H
  | H : not (@eq Qc _ _) |- _ => apply Qc_ne_Q in H
  | |- @eq Qc _ _ => apply Qc_eq_Q
  | |- not (@eq Qc _ _) => apply Qc_ne_Q
  end;
  unfold Qcle, Qclt, Qcminus, Qcplus, Qcmult, Qcopp, Q2Qc in *;
  cbn [this] in *;
  repeat match goal with
  | H : context [Qred ?q] |- _ => setoid_rewrite (Qred_correct q) in H
  | |- context [Qred ?q] => setoid_rewrite (Qred_correct q)
  end.
Ltac qc_lra := qc_to_q; lra.
Ltac qc_nra := qc_to_q; nra.

(** Closed equations between numbers, up to the proofs of canonicity. *)
Ltac qc_closed := apply Qc_is_canon; vm_compute; reflexivity.

Definition Qz (n : Z) : Qc := Qc_of_Z n.

Lemma Qc_mult_nonneg (x y : Qc) : 0 ≤ x → 0 ≤ y → 0 ≤ x * y.
Proof. intros. qc_nra. Qed.

Lemma Qc_div_mono (x y t : Qc) : 0 < t → x ≤ y → x / t ≤ y / t.
Proof.
  intros Ht Hxy. unfold Qcdiv.
  pose proof (Qcinv_pos t Ht) as Hinv. revert Hinv. generalize (/ t).
  intros. qc_nra.
Qed.

Lemma Qc_div_diag (t : Qc) : t ≠ 0 → t / t = 1.
Proof. intros Ht. unfold Qcdiv. by rewrite Qcmult_inv_r. Qed.

Lemma Qc_div_0 (t : Qc) : 0 / t = 0.
Proof. unfold Qcdiv. ring. Qed.

Module JSFacts.

Lemma max_l a b : a ≤ JS.max a b.
Proof. unfold JS.max. case_decide; qc_lra. Qed.
Lemma max_r a b : b ≤ JS.max a b.
Proof. unfold JS.max. case_decide; qc_lra. Qed.
Lemma min_l a b : JS.min a b ≤ a.
Proof. unfold JS.min. case_decide; qc_lra. Qed.
Lemma min_r a b : JS.min a b ≤ b.
Proof. unfold JS.min. case_decide; qc_lra. Qed.

End JSFacts.

(** ** Regions ([GetElementViewportRect], [CheckElement], [GetRects]) *)

(** The rectangle lies in the viewport
    [[0, viewportWidth] × [0, viewportHeight]]. *)
Definition inside_viewport (w : Window) (i : Intersect) : Prop :=
  0 ≤ i_top i ∧ i_top i ≤ i_bottom i ∧ i_bottom i ≤ viewportHeight w ∧
  0 ≤ i_left i ∧ i_left i ≤ i_right i ∧ i_right i ≤ viewportWidth w.

(** Width and height of an element's rectangle after clipping. *)
Definition clipped_width (w : Window) (elRect : ClientRect) : Qc :=
  JS.min (cr_right elRect) (viewportWidth w) - JS.max (cr_left elRect) 0.
Definition clipped_height (w : Window) (elRect : ClientRect) : Qc :=
  JS.min (cr_bottom elRect) (viewportHeight w) - JS.max (cr_top elRect) 0.

(** What holds of every entry of [rects]. *)
Definition region_ok (w : Window) (r : Rect) : Prop :=
  0 < r_area r ∧
  r_area r = (i_bottom (r_rect r) - i_top (r_rect r))
             * (i_right (r_rect r) - i_left (r_rect r)) ∧
  inside_viewport w (r_rect r).

Lemma GetElementViewportRect_Some w el i :
  GetElementViewportRect w el = Some i →
  0 < i_area i ∧
  i_area i = (i_bottom i - i_top i) * (i_right i - i_left i) ∧
  inside_viewport w i.
Proof.
  unfold GetElementViewportRect.
  destruct (el_boundingClientRect el) as [elRect|]; [|done].
  destruct (bool_decide _ || bool_decide _) eqn:Hclip; [done|].
  apply orb_false_iff in Hclip as [Hh Hw].
  apply bool_decide_eq_false in Hh, Hw.
  intros [= <-]. unfold inside_viewport. simpl.
  pose proof (JSFacts.max_r (cr_top elRect) 0).
  pose proof (JSFacts.max_r (cr_left elRect) 0).
  pose proof (JSFacts.min_r (cr_bottom elRect) (viewportHeight w)).
  pose proof (JSFacts.min_r (cr_right elRect) (viewportWidth w)).
  revert Hh Hw H H0 H1 H2.
  generalize (JS.max (cr_top elRect) 0) (JS.max (cr_left elRect) 0)
    (JS.min (cr_bottom elRect) (viewportHeight w))
    (JS.min (cr_right elRect) (viewportWidth w)) (viewportHeight w)
    (viewportWidth w).
  intros t l b r vh vw Hh Hw Ht Hl Hb Hr.
  repeat split; try qc_lra. qc_nra.
Qed.

Lemma GetElementViewportRect_clipped w el elRect :
  el_boundingClientRect el = Some elRect →
  clipped_height w elRect ≤ 0 ∨ clipped_width w elRect ≤ 0 →
  GetElementViewportRect w el = None.
Proof.
  unfold GetElementViewportRect, clipped_height, clipped_width.
  intros -> Hclip.
  destruct (bool_decide _ || bool_decide _) eqn:Hb; [done|].
  apply orb_false_iff in Hb as [Hh Hw].
  apply bool_decide_eq_false in Hh, Hw.
  revert Hclip Hh Hw.
  generalize (JS.max (cr_top elRect) 0) (JS.max (cr_left elRect) 0)
    (JS.min (cr_bottom elRect) (viewportHeight w))
    (JS.min (cr_right elRect) (viewportWidth w)).
  intros t l b r [Hclip|Hclip] Hh Hw; qc_lra.
Qed.

Lemma CheckElement_ok w el url rects :
  Forall (region_ok w) rects → Forall (region_ok w) (CheckElement w el url rects).
Proof.
  intros Hrects. unfold CheckElement.
  destruct (JS.truthy_str url); [|done].
  destruct (GetElementViewportRect w el) as [i|] eqn:Hi; [|done].
  apply Forall_app. split; [done|].
  apply Forall_singleton. by apply GetElementViewportRect_Some in Hi.
Qed.

Lemma GetRects_step_ok w st el :
  Forall (region_ok w) st.2 → Forall (region_ok w) (GetRects_step w st el).2.
Proof.
  destruct st as [lastIndex rects]. simpl. intros Hrects.
  assert (Forall (region_ok w)
            (if bool_decide (el_tagName el = "IMG")
             then CheckElement w el (el_src el) rects else rects)) as Himg.
  { case_bool_decide; [by apply CheckElement_ok|done]. }
  destruct (JS.truthy_str (el_background_image el)); [|done].
  destruct (RegExp.exec lastIndex (el_background_image el)) as [[url|] ?]; simpl;
    [by apply CheckElement_ok|done].
Qed.

Lemma GetRects_ok w : Forall (region_ok w) (GetRects w).
Proof.
  unfold GetRects.
  assert (∀ els st, Forall (region_ok w) st.2 →
            Forall (region_ok w) (foldl (GetRects_step w) st els).2) as Hfold.
  { induction els as [|el els IH]; intros st Hst; simpl; [done|].
    by apply IH, GetRects_step_ok. }
  by apply Hfold.
Qed.

(** C9. Every entry that [GetRects] pushes onto [rects] has a positive
    area, which is the width times the height of its rectangle, and a
    rectangle contained in the viewport; and an element whose clipped
    rectangle has a width or a height that is zero or negative yields no
    rectangle from [GetElementViewportRect], so that [CheckElement] leaves
    [rects] as it was, whatever the URL. *)
Theorem C9_regions_positive_inside_viewport (w : Window) :
  (∀ r, r ∈ GetRects w → 0 < r_area r ∧ inside_viewport w (r_rect r)) ∧
  (∀ el elRect url rects,
     el_boundingClientRect el = Some elRect →
     clipped_height w elRect ≤ 0 ∨ clipped_width w elRect ≤ 0 →
     GetElementViewportRect w el = None ∧ CheckElement w el url rects = rects).
Proof.
  split.
  - intros r Hr.
    pose proof (GetRects_ok w) as Hall.
    rewrite Forall_forall in Hall. destruct (Hall r Hr) as (? & ? & ?). done.
  - intros el elRect url rects Hrect Hclip.
    pose proof (GetElementViewportRect_clipped w el elRect Hrect Hclip) as Hnone.
    split; [done|]. unfold CheckElement. rewrite Hnone.
    by destruct (JS.truthy_str url).
Qed.

(** ** The [try] block *)

(** In a browser without Resource Timing the script returns [undefined]. *)
Lemma RUMSpeedIndex_no_resource_timing w :
  resources w = None → RUMSpeedIndex w = None.
Proof. unfold RUMSpeedIndex. by intros ->. Qed.

(** Everywhere else it returns a number. *)
Lemma RUMSpeedIndex_defined w requests :
  resources w = Some requests → is_Some (RUMSpeedIndex w).
Proof. unfold RUMSpeedIndex. intros ->. by eexists. Qed.

(** ** Resource timings ([GetRectTimings]) *)

(** The entries named [url], in the order of the list. *)
Definition entries_named (url : string) (requests : list ResourceEntry)
    : list ResourceEntry :=
  filter (λ e, re_name e = url) requests.

Lemma timings_of_snoc requests e :
  timings_of (requests ++ [e]) = <[re_name e := re_responseEnd e]> (timings_of requests).
Proof. unfold timings_of. by rewrite foldl_snoc. Qed.

(** [timings[url]] is the [responseEnd] of the last entry named [url]. *)
Lemma timings_of_lookup requests url :
  timings_of requests !! url = re_responseEnd <$> last (entries_named url requests).
Proof.
  unfold entries_named.
  induction requests as [|e requests IH] using rev_ind; [done|].
  rewrite timings_of_snoc, filter_app, filter_cons, filter_nil.
  destruct (decide (re_name e = url)) as [<-|Hne].
  - by rewrite lookup_insert_eq, last_snoc.
  - by rewrite lookup_insert_ne, (right_id_L [] (++)).
Qed.

Lemma entries_named_idemp url requests :
  entries_named url (entries_named url requests) = entries_named url requests.
Proof.
  unfold entries_named.
  induction requests as [|e requests IH]; [done|].
  rewrite filter_cons. case_decide; [|done].
  rewrite filter_cons. case_decide; [|done]. by rewrite IH.
Qed.

(** The time that [GetRectTimings] gives to the rectangle [r]. *)
Lemma set_tm_cases requests r :
  (∃ e, e ∈ requests ∧ re_name e = r_url r ∧
        r_tm (set_tm (timings_of requests) r) = Some (re_responseEnd e)) ∨
  ((∀ e, e ∈ requests → re_name e ≠ r_url r) ∧
   r_tm (set_tm (timings_of requests) r) = Some 0).
Proof.
  unfold set_tm. simpl. rewrite timings_of_lookup.
  destruct (last (entries_named (r_url r) requests)) as [e|] eqn:Hlast; simpl.
  - left. exists e.
    assert (e ∈ entries_named (r_url r) requests) as He.
    { apply last_Some in Hlast as [l' ->]. apply elem_of_app. right. by left. }
    apply list_elem_of_filter in He as [? ?]. done.
  - right. split; [|done]. intros e He Hname.
    apply last_None in Hlast.
    assert (e ∈ entries_named (r_url r) requests) as He'.
    { by apply list_elem_of_filter. }
    rewrite Hlast in He'. by apply not_elem_of_nil in He'.
Qed.

(** C8. [GetRectTimings] keeps the URL, the area and the rectangle of
    every entry of [rects] and sets its time: to the [responseEnd] of an
    entry of the resource list whose name equals the URL (the last such
    entry), and to 0 when no entry has that name.  Entries of another
    name, prefixes of the URL among them, do not count: the time is the
    one computed from the entries named like the URL alone. *)
Theorem C8_paint_time_exact_url (requests : list ResourceEntry)
    (rects : list Rect) (i : nat) (r : Rect) :
  rects !! i = Some r →
  ∃ r', GetRectTimings requests rects !! i = Some r' ∧
    r_url r' = r_url r ∧ r_area r' = r_area r ∧ r_rect r' = r_rect r ∧
    ((∃ e, e ∈ requests ∧ re_name e = r_url r ∧ r_tm r' = Some (re_responseEnd e)) ∨
     ((∀ e, e ∈ requests → re_name e ≠ r_url r) ∧ r_tm r' = Some 0)) ∧
    r_tm r' = Some (default 0 (re_responseEnd <$> last (entries_named (r_url r) requests))) ∧
    GetRectTimings (entries_named (r_url r) requests) rects !! i = Some r'.
Proof.
  intros Hi. exists (set_tm (timings_of requests) r).
  unfold GetRectTimings. rewrite !list_lookup_fmap, Hi. simpl.
  repeat split.
  - apply set_tm_cases.
  - rewrite timings_of_lookup. by destruct (last _).
  - unfold set_tm. by rewrite !timings_of_lookup, entries_named_idemp.
Qed.

(** ** First paint ([GetFirstPaint]) *)

(** What each of the two signal branches assigns when it runs on
    [firstPaint = undefined]. *)
Definition native_signal (w : Window) : option Qc := firstPaint_native w None.
Definition vendor_signal (w : Window) : option Qc := firstPaint_chrome w None.

Lemma native_signal_truthy w m :
  msFirstPaint w = Some m → m ≠ 0 → native_signal w = Some (m - navigationStart w).
Proof.
  intros Hm Hnz. unfold native_signal, firstPaint_native.
  by rewrite Hm, bool_decide_eq_true_2.
Qed.

Lemma native_signal_falsy w :
  JS.truthy (msFirstPaint w) = false → native_signal w = None.
Proof.
  unfold native_signal, firstPaint_native, JS.truthy.
  destruct (msFirstPaint w); [|done]. by intros ->.
Qed.

Lemma firstPaint_native_from w x :
  firstPaint_native w x =
    match native_signal w with Some n => Some n | None => x end.
Proof.
  unfold native_signal, firstPaint_native.
  destruct (msFirstPaint w); [|done]. by case_bool_decide.
Qed.

(** The Chrome branch overwrites whatever [firstPaint] holds. *)
Lemma firstPaint_chrome_from w x :
  firstPaint_chrome w x =
    match vendor_signal w with Some v => Some v | None => x end.
Proof.
  unfold vendor_signal, firstPaint_chrome.
  destruct (chrome_loadTimes w) as [chromeTimes|]; [|done].
  destruct (ct_firstPaintTime chromeTimes) as [firstPaintTime|]; [|done].
  case_bool_decide; [|done].
  destruct (chrome_startTime chromeTimes) as [startTime|]; [|done].
  by case_bool_decide.
Qed.

Lemma vendor_signal_usable w chromeTimes firstPaintTime startTime :
  chrome_loadTimes w = Some chromeTimes →
  ct_firstPaintTime chromeTimes = Some firstPaintTime →
  0 < firstPaintTime →
  chrome_startTime chromeTimes = Some startTime →
  startTime ≤ firstPaintTime →
  vendor_signal w = Some ((firstPaintTime - startTime) * Qc_of_Z 1000).
Proof.
  intros Hct Hfp Hpos Hst Hle. unfold vendor_signal, firstPaint_chrome.
  by rewrite Hct, Hfp, bool_decide_eq_true_2, Hst, bool_decide_eq_true_2.
Qed.

(** The precedence that the three blocks of [GetFirstPaint] have. *)
Lemma GetFirstPaint_cases w requests :
  GetFirstPaint w requests =
    match vendor_signal w with
    | Some v => v
    | None =>
        match native_signal w with
        | Some n => n
        | None => firstPaint_fallback w requests
        end
    end.
Proof.
  unfold GetFirstPaint. rewrite firstPaint_chrome_from, firstPaint_native_from.
  destruct (vendor_signal w); [done|]. by destruct (native_signal w).
Qed.

(** C3, as amended.  When the browser's own first-paint time is present,
    the estimate is that time minus the navigation start provided that the
    Chrome branch assigns nothing; a Chrome first-paint time that passes
    its checks overrides it. *)
Theorem C3_native_unless_vendor (w : Window) (requests : list ResourceEntry)
    (m : Qc) :
  msFirstPaint w = Some m → m ≠ 0 →
  (vendor_signal w = None → GetFirstPaint w requests = m - navigationStart w) ∧
  (∀ v, vendor_signal w = Some v → GetFirstPaint w requests = v).
Proof.
  intros Hm Hnz. rewrite GetFirstPaint_cases.
  rewrite (native_signal_truthy w m Hm Hnz).
  split; [by intros ->|by intros v ->].
Qed.

(** C4, as amended.  In the Chrome branch the time subtracted from
    [firstPaintTime] is [requestTime] whenever that is truthy, whatever
    [startLoadTime] holds; [startLoadTime] is the reference only when
    [requestTime] is missing or zero. *)
Theorem C4_requestTime_before_startLoadTime (w : Window)
    (requests : list ResourceEntry) (chromeTimes : ChromeTimes)
    (firstPaintTime : Qc) :
  chrome_loadTimes w = Some chromeTimes →
  ct_firstPaintTime chromeTimes = Some firstPaintTime →
  0 < firstPaintTime →
  (∀ requestTime,
     ct_requestTime chromeTimes = Some requestTime → requestTime ≠ 0 →
     requestTime ≤ firstPaintTime →
     GetFirstPaint w requests = (firstPaintTime - requestTime) * Qc_of_Z 1000) ∧
  (∀ startLoadTime,
     JS.truthy (ct_requestTime chromeTimes) = false →
     ct_startLoadTime chromeTimes = Some startLoadTime →
     startLoadTime ≤ firstPaintTime →
     GetFirstPaint w requests = (firstPaintTime - startLoadTime) * Qc_of_Z 1000).
Proof.
  intros Hct Hfp Hpos. split.
  - intros requestTime Hrt Hnz Hle. rewrite GetFirstPaint_cases.
    rewrite (vendor_signal_usable w chromeTimes firstPaintTime requestTime);
      [done..| |done].
    unfold chrome_startTime. rewrite Hrt. simpl.
    by rewrite bool_decide_eq_true_2.
  - intros startLoadTime Hrt Hsl Hle. rewrite GetFirstPaint_cases.
    rewrite (vendor_signal_usable w chromeTimes firstPaintTime startLoadTime);
      [done..| |done].
    unfold chrome_startTime. by rewrite Hrt.
Qed.

(** *** The fallback over the head's critical resources *)

Definition head_script (src : string) (async : bool) : HeadElement :=
  {| he_tagName := "SCRIPT"; he_src := src; he_async := async;
     he_rel := ""; he_href := "" |}.

Definition head_stylesheet (href : string) : HeadElement :=
  {| he_tagName := "LINK"; he_src := ""; he_async := false;
     he_rel := "stylesheet"; he_href := href |}.

Definition entry (name : string) (responseEnd : Qc) (initiatorType : string)
    : ResourceEntry :=
  {| re_name := name; re_responseEnd := responseEnd;
     re_initiatorType := initiatorType |}.

Definition script_or_link (initiatorType : string) : Prop :=
  initiatorType = "script" ∨ initiatorType = "link".

(** Once [doneCritical] is set, no entry changes [firstPaint]. *)
Lemma critical_done headURLs firstPaint requests :
  foldl (critical_step headURLs) (true, firstPaint) requests = (true, firstPaint).
Proof. induction requests as [|r requests IH]; [done|]. simpl. apply IH. Qed.

Lemma critical_step_match headURLs firstPaint r :
  re_name r ∈ headURLs → script_or_link (re_initiatorType r) →
  critical_step headURLs (false, firstPaint) r =
    (false, if bool_decide (firstPaint < re_responseEnd r)
            then re_responseEnd r else firstPaint).
Proof.
  intros Hin Hinit. unfold critical_step. simpl.
  rewrite (bool_decide_eq_true_2 _ Hin). simpl.
  destruct Hinit as [-> | ->]; done.
Qed.

Lemma critical_step_stop headURLs firstPaint r :
  re_name r ∉ headURLs →
  critical_step headURLs (false, firstPaint) r = (true, firstPaint).
Proof.
  intros Hin. unfold critical_step. simpl.
  by rewrite (bool_decide_eq_false_2 _ Hin).
Qed.

Lemma headURLs_of_ABC a b c :
  a ≠ "" → b ≠ "" →
  headURLs_of [head_script a false; head_stylesheet b; head_script c true]
  = {[b; a]}.
Proof.
  intros Ha Hb. unfold headURLs_of, headURLs_step, JS.truthy_str. simpl.
  rewrite (bool_decide_eq_true_2 _ Ha), (bool_decide_eq_true_2 _ Hb). simpl.
  rewrite andb_false_r. by rewrite (right_id_L ∅ (∪)).
Qed.

Lemma elem_of_AB (a b : string) : a ∈ ({[b; a]} : gset string) ∧ b ∈ ({[b; a]} : gset string).
Proof.
  split; apply elem_of_union; [right|left]; by apply elem_of_singleton.
Qed.

Lemma not_elem_of_AB (a b c : string) : c ≠ a → c ≠ b → c ∉ ({[b; a]} : gset string).
Proof.
  intros Ha Hb [Hc|Hc]%elem_of_union; apply elem_of_singleton in Hc; done.
Qed.

(** C5. With no first-paint signal from the browser, head elements
    [script A (not async), stylesheet link B, script C (async)] and
    resource entries [A at 120, B at 150, C] in that order, where A and B
    were requested by a script or a link and the response started at or
    before 120, the estimate is 150: the scan takes A and B and stops at
    C, so that neither the time of C (90 in the claim) nor any entry that
    follows C changes the result. *)
Theorem C5_critical_chain_stops (w : Window) (a b c ia ib ic : string)
    (tc : Qc) (rest : list ResourceEntry) :
  JS.truthy (msFirstPaint w) = false →
  vendor_signal w = None →
  head w = [head_script a false; head_stylesheet b; head_script c true] →
  a ≠ "" → b ≠ "" → c ≠ a → c ≠ b →
  script_or_link ia → script_or_link ib →
  responseStart w - navigationStart w ≤ Qz 120 →
  GetFirstPaint w (entry a (Qz 120) ia :: entry b (Qz 150) ib :: entry c tc ic :: rest)
  = Qz 150.
Proof.
  intros Hnative Hvendor Hhead Ha Hb Hca Hcb Hia Hib Hstart.
  rewrite GetFirstPaint_cases, Hvendor, (native_signal_falsy w Hnative).
  unfold firstPaint_fallback. rewrite Hhead, (headURLs_of_ABC a b c Ha Hb).
  cbn [foldl].
  rewrite critical_step_match; [|apply elem_of_AB|done]. cbn [entry re_responseEnd].
  rewrite critical_step_match; [|apply elem_of_AB|done]. cbn [entry re_responseEnd].
  rewrite critical_step_stop; [|by apply not_elem_of_AB].
  rewrite critical_done. cbn [snd].
  revert Hstart. generalize (responseStart w - navigationStart w). intros s Hs.
  assert (Qz 120 < Qz 150) as H150 by done.
  revert H150 Hs. generalize (Qz 120) (Qz 150). intros x y Hxy Hs.
  repeat case_bool_decide; try done; qc_lra.
Qed.

(** ** Visual progress ([CalculateVisualProgress]) *)

(** Strict order of the entries by time. *)
Definition tm_lt (a b : Qc * Qc) : Prop := a.1 < b.1.

(** Sum of the areas of a list of entries [{tm, area}]. *)
Definition sum_areas (l : list (Qc * Qc)) : Qc := foldr (λ x s, x.2 + s) 0 l.

Global Instance sum_areas_Permutation : Proper ((≡ₚ) ==> (=)) sum_areas.
Proof.
  induction 1 as [|x l1 l2 _ IH|x y l|l1 l2 l3 _ IH1 _ IH2]; simpl.
  - done.
  - by rewrite IH.
  - ring.
  - congruence.
Qed.

Lemma sum_areas_app l1 l2 : sum_areas (l1 ++ l2)%list = sum_areas l1 + sum_areas l2.
Proof. induction l1 as [|x l1 IH]; simpl; [ring|]. rewrite IH. ring. Qed.

Lemma sum_areas_nonneg l : Forall (λ x, 0 ≤ x.2) l → 0 ≤ sum_areas l.
Proof.
  induction 1 as [|x l Hx _ IH]; simpl; [done|].
  by apply Qcplus_nonneg_nonneg.
Qed.

(** Sum of the areas held by [paints]. *)
Definition paints_sum (paints : gmap Qc Qc) : Qc := sum_areas (map_to_list paints).

Lemma paints_sum_insert_fresh (paints : gmap Qc Qc) tm area :
  paints !! tm = None → paints_sum (<[tm := area]> paints) = area + paints_sum paints.
Proof. intros Hnone. unfold paints_sum. by rewrite map_to_list_insert. Qed.

Lemma paints_sum_add tm area (paints : gmap Qc Qc) :
  paints_sum (paints_add tm area paints) = paints_sum paints + area.
Proof.
  unfold paints_add. destruct (paints !! tm) as [v|] eqn:Htm; simpl.
  - assert (paints_sum paints = v + paints_sum (delete tm paints)) as ->.
    { rewrite <-(insert_delete_id paints tm v Htm) at 1.
      apply paints_sum_insert_fresh, lookup_delete_eq. }
    rewrite <-insert_delete_eq.
    rewrite paints_sum_insert_fresh by apply lookup_delete_eq. ring.
  - rewrite paints_sum_insert_fresh by done. ring.
Qed.

Lemma paints_add_lookup tm area (paints : gmap Qc Qc) k :
  paints_add tm area paints !! k =
    if decide (tm = k) then Some (default 0 (paints !! tm) + area) else paints !! k.
Proof. unfold paints_add. apply lookup_insert. Qed.

(** What the loop of lines 168-176 and the background step preserve:
    [total] is the sum of the areas in [paints], no area is negative, and
    the bucket of time 0 exists; it stays empty unless first paint is 0. *)
Record paints_inv (firstPaint : Qc) (st : gmap Qc Qc * Qc) : Prop := {
  inv_total : st.2 = paints_sum st.1;
  inv_nonneg : map_Forall (λ _ area, 0 ≤ area) st.1;
  inv_zero : is_Some (st.1 !! 0);
  inv_zero_empty : firstPaint ≠ 0 → st.1 !! 0 = Some 0
}.

Lemma paints_inv_init firstPaint : paints_inv firstPaint ({[0 := 0]}, 0).
Proof.
  split; simpl.
  - unfold paints_sum. rewrite map_to_list_singleton. simpl. ring.
  - intros k v. rewrite lookup_singleton_Some. by intros [_ <-].
  - rewrite lookup_singleton_eq. by eexists.
  - intros _. by rewrite lookup_singleton_eq.
Qed.

Lemma paints_inv_add firstPaint tm area paints total :
  0 ≤ area → (firstPaint ≠ 0 → tm ≠ 0) →
  paints_inv firstPaint (paints, total) →
  paints_inv firstPaint (paints_add tm area paints, total + area).
Proof.
  intros Harea Htm [Htotal Hnonneg Hzero Hempty]. simpl in *.
  split; simpl.
  - rewrite paints_sum_add. by rewrite Htotal.
  - intros k v. rewrite paints_add_lookup. case_decide as Hk.
    + intros [= <-]. apply Qcplus_nonneg_nonneg; [|done].
      destruct (paints !! tm) as [v0|] eqn:Hv0; simpl; [|done].
      by apply (Hnonneg tm).
    + apply Hnonneg.
  - rewrite paints_add_lookup. case_decide; [by eexists|done].
  - intros Hfp. rewrite paints_add_lookup.
    rewrite decide_False by auto. auto.
Qed.

Lemma paint_tm_cases firstPaint r :
  paint_tm firstPaint r = firstPaint ∨
  (∃ tm, r_tm r = Some tm ∧ tm ≠ 0 ∧ firstPaint < tm ∧ paint_tm firstPaint r = tm).
Proof.
  unfold paint_tm. destruct (r_tm r) as [tm|]; simpl; [|by left].
  repeat case_bool_decide; simpl; eauto 10.
Qed.

Lemma paint_tm_nonzero firstPaint r : firstPaint ≠ 0 → paint_tm firstPaint r ≠ 0.
Proof.
  intros Hfp. destruct (paint_tm_cases firstPaint r) as [-> | (tm & _ & ? & _ & ->)];
    done.
Qed.

Lemma paint_tm_ge firstPaint r : firstPaint ≤ paint_tm firstPaint r.
Proof.
  destruct (paint_tm_cases firstPaint r) as [-> | (tm & _ & _ & ? & ->)];
    [done|by apply Qclt_le_weak].
Qed.

Lemma paint_loop_inv firstPaint rects st :
  Forall (λ r, 0 ≤ r_area r) rects →
  paints_inv firstPaint st →
  paints_inv firstPaint (foldl (paint_step firstPaint) st rects).
Proof.
  intros Hrects. revert st.
  induction Hrects as [|r rects Hr _ IH]; intros [paints total] Hst; [done|].
  simpl. apply IH, paints_inv_add; auto using paint_tm_nonzero.
Qed.

Lemma paint_background_inv firstPaint pixels st :
  paints_inv firstPaint st → paints_inv firstPaint (paint_background firstPaint pixels st).
Proof.
  destruct st as [paints total]. intros Hst. unfold paint_background.
  case_bool_decide; [|done].
  apply paints_inv_add; [|done..].
  apply Qc_mult_nonneg; [apply JSFacts.max_r|done].
Qed.

Lemma paints_total_inv w rects firstPaint :
  Forall (λ r, 0 ≤ r_area r) rects →
  paints_inv firstPaint (paints_total w rects firstPaint).
Proof.
  intros Hrects. unfold paints_total.
  apply paint_background_inv, paint_loop_inv; [done|apply paints_inv_init].
Qed.

Lemma paints_total_nonneg w rects firstPaint :
  Forall (λ r, 0 ≤ r_area r) rects → 0 ≤ (paints_total w rects firstPaint).2.
Proof.
  intros Hrects. destruct (paints_total_inv w rects firstPaint Hrects) as [-> Hnn _ _].
  apply sum_areas_nonneg. apply Forall_forall. intros [k v] Hkv.
  apply elem_of_map_to_list in Hkv. by apply (Hnn k).
Qed.

(** *** The sort *)

Global Instance tm_before_total : Total tm_before.
Proof.
  intros [t1 a1] [t2 a2]. unfold tm_before, compare_tm. simpl.
  destruct (Qclt_le_dec t1 t2); [left|right]; qc_lra.
Qed.

Global Instance tm_before_trans : Transitive tm_before.
Proof.
  intros [t1 a1] [t2 a2] [t3 a3]. unfold tm_before, compare_tm. simpl.
  intros. qc_lra.
Qed.

Lemma tm_before_le a b : tm_before a b ↔ a.1 ≤ b.1.
Proof.
  destruct a as [t1 a1], b as [t2 a2]. unfold tm_before, compare_tm. simpl.
  split; intros; qc_lra.
Qed.

(** A list sorted by [tm_before] whose times are distinct is strictly
    sorted. *)
Lemma StronglySorted_tm_lt l :
  StronglySorted tm_before l → NoDup l.*1 → StronglySorted tm_lt l.
Proof.
  induction 1 as [|x l _ IH Hx]; simpl; [constructor|].
  rewrite NoDup_cons. intros [Hnotin Hnodup].
  constructor; [by apply IH|].
  rewrite Forall_forall in Hx |- *. intros y Hy.
  pose proof (Hx y Hy) as Hxy. apply tm_before_le in Hxy.
  assert (x.1 ≠ y.1) as Hne.
  { intros Heq. apply Hnotin. rewrite Heq. by apply list_elem_of_fmap_2. }
  unfold tm_lt. qc_lra.
Qed.

Lemma sorted_paints_Permutation paints : sorted_paints paints ≡ₚ map_to_list paints.
Proof. apply merge_sort_Permutation. Qed.

Lemma sorted_paints_sorted paints : StronglySorted tm_lt (sorted_paints paints).
Proof.
  apply StronglySorted_tm_lt.
  - apply StronglySorted_merge_sort; apply _.
  - rewrite sorted_paints_Permutation. apply NoDup_fst_map_to_list.
Qed.

Lemma sorted_paints_elem paints tm area :
  (tm, area) ∈ sorted_paints paints ↔ paints !! tm = Some area.
Proof. by rewrite sorted_paints_Permutation, elem_of_map_to_list. Qed.

Lemma sorted_paints_sum paints : sum_areas (sorted_paints paints) = paints_sum paints.
Proof. unfold paints_sum. by rewrite sorted_paints_Permutation. Qed.

(** The sort has one possible result: the strictly sorted arrangement of
    the entries of [paints]. *)
Lemma sorted_paints_unique paints l :
  StronglySorted tm_lt l → l ≡ₚ map_to_list paints → sorted_paints paints = l.
Proof.
  intros Hl Hperm.
  apply (StronglySorted_unique_strong tm_lt).
  - intros [t1 a1] [t2 a2] _ _. unfold tm_lt. simpl. intros. qc_lra.
  - apply sorted_paints_sorted.
  - done.
  - by rewrite sorted_paints_Permutation.
Qed.

(** *** The running sum *)

Definition time_lt (p q : Progress) : Prop := p_tm p < p_tm q.
Definition progress_le (p q : Progress) : Prop := p_progress p ≤ p_progress q.

Lemma accumulate_app total accumulated l1 l2 :
  accumulate total accumulated (l1 ++ l2)%list =
    (accumulate total accumulated l1
     ++ accumulate total (accumulated + sum_areas l1) l2)%list.
Proof.
  revert accumulated. induction l1 as [|[tm area] l1 IH]; intros accumulated; simpl.
  - f_equal. ring.
  - rewrite IH. do 3 f_equal. ring.
Qed.

Lemma accumulate_elem total accumulated l p :
  p ∈ accumulate total accumulated l → (p_tm p, p_area p) ∈ l.
Proof.
  revert accumulated. induction l as [|[tm area] l IH]; intros accumulated; simpl.
  - by intros ?%not_elem_of_nil.
  - rewrite !elem_of_cons. intros [-> | Hp]; [by left|right; eauto].
Qed.

Lemma accumulate_elem_2 total accumulated l tm area :
  (tm, area) ∈ l →
  ∃ p, p ∈ accumulate total accumulated l ∧ p_tm p = tm ∧ p_area p = area.
Proof.
  revert accumulated. induction l as [|[tm' area'] l IH]; intros accumulated; simpl.
  - by intros ?%not_elem_of_nil.
  - rewrite elem_of_cons. intros [[= -> ->] | Hin].
    + eexists. split; [by left|done].
    + destruct (IH (accumulated + area') Hin) as (p & ? & ? & ?).
      exists p. split; [by right|done].
Qed.

Lemma accumulate_time_sorted total accumulated l :
  StronglySorted tm_lt l → StronglySorted time_lt (accumulate total accumulated l).
Proof.
  intros Hl. revert accumulated.
  induction Hl as [|x l _ IH Hx]; intros accumulated; [constructor|].
  destruct x as [tm area]. simpl. constructor.
  - apply IH.
  - rewrite Forall_forall in Hx. apply Forall_forall. intros p Hp.
    apply accumulate_elem in Hp. apply (Hx _ Hp).
Qed.

(** Every value of [progress] is at least the one before it. *)
Lemma accumulate_progress_ge total accumulated l p :
  0 < total → Forall (λ x, 0 ≤ x.2) l →
  p ∈ accumulate total accumulated l → accumulated / total ≤ p_progress p.
Proof.
  intros Htotal Hl. revert accumulated.
  induction Hl as [|x l Hx _ IH]; intros accumulated.
  - by intros ?%not_elem_of_nil.
  - destruct x as [tm area]. simpl in *. rewrite elem_of_cons.
    assert (accumulated / total ≤ (accumulated + area) / total) as Hstep.
    { apply Qc_div_mono; [done|]. revert Hx. generalize accumulated area.
      intros. qc_lra. }
    intros [-> | Hp]; simpl; [done|].
    etrans; [exact Hstep|]. by apply IH.
Qed.

Lemma accumulate_progress_sorted total accumulated l :
  0 < total → Forall (λ x, 0 ≤ x.2) l →
  StronglySorted progress_le (accumulate total accumulated l).
Proof.
  intros Htotal Hl. revert accumulated.
  induction Hl as [|x l Hx Hl IH]; intros accumulated; [constructor|].
  destruct x as [tm area]. simpl. constructor.
  - apply IH.
  - apply Forall_forall. intros p Hp. unfold progress_le. simpl.
    by apply (accumulate_progress_ge total _ l).
Qed.

(** The last value of [progress] is the whole sum over [total]. *)
Lemma accumulate_last total accumulated l :
  l ≠ [] →
  ∃ p, last (accumulate total accumulated l) = Some p ∧
       Some (p_tm p, p_area p) = last l ∧
       p_progress p = (accumulated + sum_areas l) / total.
Proof.
  intros Hl. destruct (proj2 (last_is_Some l) Hl) as [[tm area] Hlast].
  apply last_Some in Hlast as [l' ->].
  rewrite accumulate_app. simpl.
  eexists. split; [apply last_snoc|]. simpl. split; [by rewrite last_snoc|].
  rewrite sum_areas_app. simpl. f_equal. ring.
Qed.

Lemma paints_entries_nonneg firstPaint st :
  paints_inv firstPaint st → Forall (λ x, 0 ≤ x.2) (sorted_paints st.1).
Proof.
  intros [_ Hnn _ _]. apply Forall_forall. intros [tm area] Hin.
  apply sorted_paints_elem in Hin. by apply (Hnn tm).
Qed.

Lemma paints_nonempty firstPaint st :
  paints_inv firstPaint st → sorted_paints st.1 ≠ [].
Proof.
  intros [_ _ [area Hzero] _] Hnil.
  apply sorted_paints_elem in Hzero. rewrite Hnil in Hzero.
  by apply not_elem_of_nil in Hzero.
Qed.

Lemma CalculateVisualProgress_unfold w rects firstPaint :
  CalculateVisualProgress w rects firstPaint =
    if bool_decide ((paints_total w rects firstPaint).2 ≠ 0)
    then accumulate (paints_total w rects firstPaint).2 0
           (sorted_paints (paints_total w rects firstPaint).1)
    else [].
Proof. unfold CalculateVisualProgress. by destruct (paints_total _ _ _). Qed.

Lemma GetRectTimings_area requests rects :
  Forall (λ r, 0 < r_area r) rects →
  Forall (λ r, 0 < r_area r) (GetRectTimings requests rects).
Proof. unfold GetRectTimings. intros H. by apply Forall_fmap. Qed.

Lemma GetRects_area w : Forall (λ r, 0 < r_area r) (GetRects w).
Proof.
  eapply Forall_impl; [apply GetRects_ok|]. by intros r [? _].
Qed.

(** The rectangles that reach [CalculateVisualProgress]. *)
Definition timed_rects (w : Window) (requests : list ResourceEntry) : list Rect :=
  GetRectTimings requests (GetRects w).

Lemma timed_rects_nonneg w requests : Forall (λ r, 0 ≤ r_area r) (timed_rects w requests).
Proof.
  eapply Forall_impl; [apply GetRectTimings_area, GetRects_area|].
  intros r. apply Qclt_le_weak.
Qed.

(** C2. For every page, every resource list and every first-paint time,
    the list [progress] that [CalculateVisualProgress] builds is sorted by
    strictly increasing time, its [progress] values never decrease along
    it, and when the total area is positive its last [progress] value is
    1 (numbers are exact here, so 1 is reached without rounding). *)
Theorem C2_progress_sorted_monotone_complete (w : Window)
    (requests : list ResourceEntry) (firstPaint : Qc) :
  let progress := CalculateVisualProgress w (timed_rects w requests) firstPaint in
  let total := (paints_total w (timed_rects w requests) firstPaint).2 in
  StronglySorted time_lt progress ∧
  StronglySorted progress_le progress ∧
  (0 < total → ∃ p, last progress = Some p ∧ p_progress p = 1).
Proof.
  intros progress total. subst progress total.
  pose proof (timed_rects_nonneg w requests) as Hrects.
  pose proof (paints_total_inv w _ firstPaint Hrects) as Hinv.
  pose proof (paints_total_nonneg w _ firstPaint Hrects) as Hnn.
  rewrite CalculateVisualProgress_unfold.
  set (st := paints_total w (timed_rects w requests) firstPaint) in *.
  case_bool_decide as Htotal.
  - assert (0 < st.2) as Hpos by (revert Hnn Htotal; generalize st.2; intros; qc_lra).
    split_and!.
    + apply accumulate_time_sorted, sorted_paints_sorted.
    + apply accumulate_progress_sorted; [done|].
      by apply (paints_entries_nonneg firstPaint).
    + intros _.
      destruct (accumulate_last st.2 0 (sorted_paints st.1)) as (p & Hlast & _ & Hp).
      { by apply (paints_nonempty firstPaint). }
      exists p. split; [done|]. rewrite Hp, sorted_paints_sum.
      rewrite <-(inv_total _ _ Hinv), Qcplus_0_l. by apply Qc_div_diag.
  - split_and!; [constructor..|].
    intros Hpos. exfalso. revert Hpos Htotal. generalize st.2. intros. qc_lra.
Qed.

(** ** Speed index ([CalculateSpeedIndex]) *)

Lemma CalculateSpeedIndex_nonempty progress firstPaint :
  progress ≠ [] → CalculateSpeedIndex progress firstPaint = integrate (0, 0, 0) progress.
Proof. by destruct progress. Qed.

Lemma integrate_app st l1 l2 :
  integrate st (l1 ++ l2)%list = integrate (foldl integrate_step st l1) l2.
Proof. unfold integrate. by rewrite foldl_app. Qed.

Lemma integrate_cons st p l :
  integrate st (p :: l) = integrate (integrate_step st p) l.
Proof. done. Qed.

(** After a turn of the loop, [lastTime] and [lastProgress] are those of
    the entry just visited. *)
Lemma integrate_step_last st p :
  (integrate_step st p).1.2 = p_tm p ∧ (integrate_step st p).2 = p_progress p.
Proof. by destruct st as [[SpeedIndex lastTime] lastProgress]. Qed.

(** An entry of time 0 that repeats the progress reached before it adds
    nothing to the sum: the time up to 0 that it accounts for is accounted
    for by the next entry otherwise. *)
Lemma integrate_skip_zero SpeedIndex lastTime lastProgress area rest :
  lastTime ≤ 0 →
  match rest with
  | [] => lastTime = 0 ∨ 1 ≤ lastProgress
  | q :: _ => 0 < p_tm q
  end →
  integrate (SpeedIndex, lastTime, lastProgress)
    ({| p_tm := 0; p_area := area; p_progress := lastProgress |} :: rest)
  = integrate (SpeedIndex, lastTime, lastProgress) rest.
Proof.
  intros Hlast Hrest. destruct rest as [|q rest].
  - unfold integrate. simpl.
    repeat case_bool_decide; simpl; try done.
    destruct Hrest; qc_lra.
  - rewrite !integrate_cons. f_equal. unfold integrate_step. simpl.
    revert Hrest. generalize (p_tm q). intros t Ht.
    f_equal. f_equal.
    repeat case_bool_decide; simpl; try qc_lra.
    by assert (lastTime = 0) as -> by qc_lra.
Qed.

(** *** The bucket of time 0 *)

Lemma filter_Forall_id {A} (P : A → Prop) `{∀ x, Decision (P x)} (l : list A) :
  Forall P l → filter P l = l.
Proof.
  induction 1 as [|x l Hx _ IH]; [done|].
  by rewrite filter_cons_True, IH.
Qed.

(** [progress] without the entries of time 0. *)
Definition without_zero (progress : list Progress) : list Progress :=
  filter (λ p, p_tm p ≠ 0) progress.

Lemma without_zero_accumulate total accumulated l :
  Forall (λ x, x.1 ≠ 0) l →
  without_zero (accumulate total accumulated l) = accumulate total accumulated l.
Proof.
  intros Hl. apply filter_Forall_id, Forall_forall. intros p Hp.
  apply accumulate_elem in Hp. rewrite Forall_forall in Hl.
  apply (Hl _ Hp).
Qed.

(** [lastTime] and [lastProgress] after the entries that lie before
    time 0. *)
Lemma integrate_negative_prefix total l :
  Forall (λ x, x.1 < 0) l →
  let st := foldl integrate_step (0, 0, 0) (accumulate total 0 l) in
  st.1.2 ≤ 0 ∧ st.2 = (0 + sum_areas l) / total.
Proof.
  intros Hl. destruct l as [|x l _] using rev_ind; simpl.
  - split; [done|]. by rewrite Qcplus_0_l, Qc_div_0.
  - destruct x as [tm area]. rewrite accumulate_app, foldl_app. simpl.
    rewrite Forall_app, Forall_singleton in Hl. destruct Hl as [_ Hx].
    simpl in Hx.
    match goal with
    | |- context [integrate_step ?st ?p] =>
        destruct (integrate_step_last st p) as [-> ->]
    end.
    simpl. split; [by apply Qclt_le_weak|].
    rewrite sum_areas_app. simpl. f_equal. ring.
Qed.

(** Dropping an empty bucket of time 0 from [progress] does not change
    the sum that [CalculateSpeedIndex] computes. *)
Lemma integrate_without_zero (paints : gmap Qc Qc) total :
  total = paints_sum paints → total ≠ 0 → paints !! 0 = Some 0 →
  let progress := accumulate total 0 (sorted_paints paints) in
  without_zero progress ≠ [] ∧
  integrate (0, 0, 0) (without_zero progress) = integrate (0, 0, 0) progress.
Proof.
  intros Htotal Hnz Hzero progress. subst progress.
  rewrite <-sorted_paints_sum in Htotal.
  pose proof (sorted_paints_sorted paints) as Hsorted.
  apply sorted_paints_elem in Hzero.
  apply list_elem_of_split in Hzero as (l1 & l2 & Hsplit).
  rewrite Hsplit in Htotal, Hsorted |- *. clear Hsplit.
  apply StronglySorted_app in Hsorted as (Hl1 & _ & Hl2).
  apply StronglySorted_cons in Hl2 as [Hl2 _].
  assert (Forall (λ x, x.1 < 0) l1) as Hneg.
  { apply Forall_forall. intros x Hx. apply (Hl1 x (0, 0) Hx). by left. }
  assert (Forall (λ x, 0 < x.1) l2) as Hpos by done.
  rewrite sum_areas_app in Htotal. simpl in Htotal.
  rewrite accumulate_app. simpl accumulate.
  unfold without_zero. rewrite filter_app, filter_cons_False by (simpl; tauto).
  fold without_zero.
  rewrite !without_zero_accumulate; cycle 1.
  { eapply Forall_impl; [exact Hpos|]. simpl. intros x Hx Heq.
    rewrite Heq in Hx. by apply Qclt_not_eq in Hx. }
  { eapply Forall_impl; [exact Hneg|]. simpl. intros x Hx Heq.
    rewrite Heq in Hx. by apply Qclt_not_eq in Hx. }
  assert (0 + sum_areas l1 + 0 = 0 + sum_areas l1) as -> by ring.
  split.
  - intros [Hnil1 Hnil2]%app_eq_nil.
    destruct l1 as [|[??] ?]; [|done]. destruct l2 as [|[??] ?]; [|done].
    simpl in Htotal. apply Hnz. rewrite Htotal. ring.
  - rewrite !integrate_app.
    destruct (integrate_negative_prefix total l1 Hneg) as [Hlast Hprog].
    destruct (foldl integrate_step (0, 0, 0) (accumulate total 0 l1))
      as [[SpeedIndex lastTime] lastProgress].
    simpl in Hlast, Hprog. rewrite <-Hprog. symmetry.
    apply integrate_skip_zero; [done|].
    destruct l2 as [|[tm area] l2]; simpl.
    + right. rewrite Hprog. simpl in Htotal.
      assert (0 + sum_areas l1 = total) as -> by (rewrite Htotal; ring).
      by rewrite Qc_div_diag.
    + by apply Forall_cons in Hpos as [? _].
Qed.

(** A page that shows a rectangle has a viewport of positive size. *)
Lemma viewportWidth_le_page w :
  viewportWidth w ≤ JS.max (clientWidth w) (JS.or_else (innerWidth w) 0).
Proof.
  unfold viewportWidth, JS.or_else. destruct (innerWidth w) as [q|].
  - case_bool_decide; [apply JSFacts.max_r|apply JSFacts.max_l].
  - apply JSFacts.max_l.
Qed.

Lemma viewportHeight_le_page w :
  viewportHeight w ≤ JS.max (clientHeight w) (JS.or_else (innerHeight w) 0).
Proof.
  unfold viewportHeight, JS.or_else. destruct (innerHeight w) as [q|].
  - case_bool_decide; [apply JSFacts.max_r|apply JSFacts.max_l].
  - apply JSFacts.max_l.
Qed.

Lemma region_page_pixels w r : region_ok w r → 0 < page_pixels w.
Proof.
  intros (Harea & Heq & Ht & Htb & Hb & Hl & Hlr & Hr).
  rewrite Heq in Harea. unfold page_pixels.
  pose proof (viewportWidth_le_page w) as Hw.
  pose proof (viewportHeight_le_page w) as Hh.
  revert Harea Ht Htb Hb Hl Hlr Hr Hw Hh.
  generalize (JS.max (clientWidth w) (JS.or_else (innerWidth w) 0))
    (JS.max (clientHeight w) (JS.or_else (innerHeight w) 0))
    (viewportWidth w) (viewportHeight w)
    (i_top (r_rect r)) (i_bottom (r_rect r)) (i_left (r_rect r)) (i_right (r_rect r)).
  intros pw ph vw vh t b l r'. intros.
  assert (0 < b - t ∧ 0 < r' - l) as [??] by (split; qc_nra).
  assert (0 < pw ∧ 0 < ph) as [??] by (split; qc_lra).
  by apply Qcmult_pos_pos.
Qed.

Lemma timed_rects_page_pixels w requests :
  timed_rects w requests ≠ [] → 0 < page_pixels w.
Proof.
  unfold timed_rects, GetRectTimings. intros Hne.
  pose proof (GetRects_ok w) as Hok.
  destruct (GetRects w) as [|r rects]; [done|].
  apply Forall_cons in Hok as [Hr _]. by apply (region_page_pixels w r).
Qed.

(** Some rectangle is painted at time 0, or the page background is. *)
Definition bucket_at_zero (w : Window) (rects : list Rect) (firstPaint : Qc) : Prop :=
  (∃ r, r ∈ rects ∧ paint_tm firstPaint r = 0) ∨
  (0 < page_pixels w ∧ firstPaint = 0).

Lemma paints_total_nil w firstPaint :
  ¬ 0 < page_pixels w → paints_total w [] firstPaint = ({[0 := 0]}, 0).
Proof.
  intros Hpx. unfold paints_total, paint_background. simpl.
  by rewrite bool_decide_eq_false_2.
Qed.

Lemma no_bucket_at_zero w requests firstPaint :
  (paints_total w (timed_rects w requests) firstPaint).2 ≠ 0 →
  ¬ bucket_at_zero w (timed_rects w requests) firstPaint ↔ firstPaint ≠ 0.
Proof.
  intros Htotal. split.
  - intros Hno ->. destruct (decide (0 < page_pixels w)) as [Hpx|Hpx].
    { apply Hno. by right. }
    destruct (decide (timed_rects w requests = [])) as [Hnil|Hne].
    + rewrite Hnil, paints_total_nil in Htotal; done.
    + by apply Hpx, (timed_rects_page_pixels w requests).
  - intros Hfp [(r & _ & Hr) | [_ ?]]; [|done].
    by apply (paint_tm_nonzero firstPaint r).
Qed.

(** C10. When the total area is positive, [progress] holds an entry of
    time 0, which comes from the initial bucket [{'0': 0}].  When no
    rectangle and no background paint falls at time 0, that entry has
    area 0, and [CalculateSpeedIndex] computes the same value from
    [progress] with the entry removed. *)
Theorem C10_zero_bucket_is_neutral (w : Window) (requests : list ResourceEntry)
    (firstPaint : Qc) :
  let rects := timed_rects w requests in
  let progress := CalculateVisualProgress w rects firstPaint in
  0 < (paints_total w rects firstPaint).2 →
  (∃ p, p ∈ progress ∧ p_tm p = 0) ∧
  (¬ bucket_at_zero w rects firstPaint →
   (∀ p, p ∈ progress → p_tm p = 0 → p_area p = 0) ∧
   CalculateSpeedIndex (without_zero progress) firstPaint
   = CalculateSpeedIndex progress firstPaint).
Proof.
  intros rects progress Hpos. subst rects progress.
  assert ((paints_total w (timed_rects w requests) firstPaint).2 ≠ 0) as Hnz.
  { intros Heq. rewrite Heq in Hpos. by apply Qclt_not_eq in Hpos. }
  pose proof (paints_total_inv w _ firstPaint (timed_rects_nonneg w requests)) as Hinv.
  pose proof (no_bucket_at_zero w requests firstPaint Hnz) as Hbucket.
  rewrite CalculateVisualProgress_unfold, bool_decide_eq_true_2 by done.
  destruct (paints_total w (timed_rects w requests) firstPaint) as [paints total].
  destruct Hinv as [Htotal _ [area Hzero] Hempty]. simpl in *.
  split.
  - apply sorted_paints_elem in Hzero.
    destruct (accumulate_elem_2 total 0 _ _ _ Hzero) as (p & ? & ? & _). eauto.
  - intros Hfp%Hbucket. specialize (Hempty Hfp).
    destruct (integrate_without_zero paints total Htotal Hnz Hempty) as [Hne Heq].
    split.
    + intros p Hp Htm. apply accumulate_elem, sorted_paints_elem in Hp.
      rewrite Htm, Hempty in Hp. by injection Hp.
    + rewrite !CalculateSpeedIndex_nonempty; [done| |done].
      intros Hnil. rewrite Hnil in Hne. done.
Qed.

(** *** Pages whose paints all fall at first paint *)

(** [paints] has no bucket but those of time 0 and of first paint. *)
Definition two_buckets (firstPaint : Qc) (paints : gmap Qc Qc) : Prop :=
  ∀ tm, is_Some (paints !! tm) → tm = 0 ∨ tm = firstPaint.

Lemma two_buckets_add firstPaint area paints :
  two_buckets firstPaint paints →
  two_buckets firstPaint (paints_add firstPaint area paints).
Proof.
  intros Hp tm. rewrite paints_add_lookup. case_decide; [by right|apply Hp].
Qed.

Lemma two_buckets_loop firstPaint rects st :
  Forall (λ r, paint_tm firstPaint r = firstPaint) rects →
  two_buckets firstPaint st.1 →
  two_buckets firstPaint (foldl (paint_step firstPaint) st rects).1.
Proof.
  intros Hrects. revert st.
  induction Hrects as [|r rects Hr _ IH]; intros [paints total] Hst; [done|].
  simpl. apply IH. simpl. rewrite Hr. by apply two_buckets_add.
Qed.

Lemma two_buckets_total w rects firstPaint :
  Forall (λ r, paint_tm firstPaint r = firstPaint) rects →
  two_buckets firstPaint (paints_total w rects firstPaint).1.
Proof.
  intros Hrects. unfold paints_total.
  pose proof (two_buckets_loop firstPaint rects ({[0 := 0]}, 0) Hrects) as Hloop.
  destruct (foldl _ _ rects) as [paints total]. unfold paint_background.
  assert (two_buckets firstPaint paints) as Hp.
  { apply Hloop. intros tm [v Hv]. simpl in Hv.
    apply lookup_singleton_Some in Hv as [<- _]. by left. }
  case_bool_decide; simpl; [by apply two_buckets_add|done].
Qed.

Lemma sorted_paints_singleton tm area : sorted_paints {[tm := area]} = [(tm, area)].
Proof. unfold sorted_paints. by rewrite map_to_list_singleton. Qed.

Lemma sorted_paints_zero_and firstPaint area :
  0 < firstPaint →
  sorted_paints (<[firstPaint := area]> {[0 := 0]}) = [(0, 0); (firstPaint, area)].
Proof.
  intros Hfp. apply sorted_paints_unique.
  - repeat constructor. done.
  - rewrite map_to_list_insert, map_to_list_singleton; [apply Permutation_swap|].
    apply lookup_singleton_ne. intros Heq. rewrite <-Heq in Hfp.
    by apply Qclt_not_eq in Hfp.
Qed.

(** The shapes that [paints] can have when it has two buckets. *)
Lemma two_buckets_shape firstPaint paints :
  two_buckets firstPaint paints → firstPaint ≠ 0 → paints !! 0 = Some 0 →
  paints = {[0 := 0]} ∨ ∃ area, paints = <[firstPaint := area]> {[0 := 0]}.
Proof.
  intros Hp Hfp Hzero. destruct (paints !! firstPaint) as [area|] eqn:Hat.
  - right. exists area. apply map_eq. intros tm.
    destruct (decide (tm = firstPaint)) as [->|Hne1].
    { by rewrite lookup_insert_eq. }
    rewrite lookup_insert_ne by done.
    destruct (decide (tm = 0)) as [->|Hne0].
    { by rewrite lookup_singleton_eq. }
    rewrite lookup_singleton_ne by done.
    destruct (paints !! tm) eqn:Htm; [|done].
    destruct (Hp tm) as [?|?]; [by eexists|done..].
  - left. apply map_eq. intros tm.
    destruct (decide (tm = 0)) as [->|Hne0].
    { by rewrite lookup_singleton_eq. }
    rewrite lookup_singleton_ne by done.
    destruct (paints !! tm) eqn:Htm; [|done].
    destruct (Hp tm) as [?|?]; [by eexists|done|congruence].
Qed.

Lemma two_buckets_shape_zero paints :
  two_buckets 0 paints → is_Some (paints !! 0) →
  ∃ area, paints = {[0 := area]}.
Proof.
  intros Hp [area Hzero]. exists area. apply map_eq. intros tm.
  destruct (decide (tm = 0)) as [->|Hne0].
  { by rewrite lookup_singleton_eq. }
  rewrite lookup_singleton_ne by done.
  destruct (paints !! tm) eqn:Htm; [|done].
  destruct (Hp tm) as [?|?]; by eauto.
Qed.

(** When every rectangle is painted at first paint, and first paint is
    not negative, the speed index is the first-paint time. *)
Lemma single_bucket_SpeedIndex w rects firstPaint :
  Forall (λ r, 0 ≤ r_area r) rects →
  Forall (λ r, paint_tm firstPaint r = firstPaint) rects →
  0 ≤ firstPaint →
  CalculateSpeedIndex (CalculateVisualProgress w rects firstPaint) firstPaint
  = firstPaint.
Proof.
  intros Harea Htm Hfp.
  pose proof (paints_total_inv w rects firstPaint Harea) as Hinv.
  pose proof (two_buckets_total w rects firstPaint Htm) as Hkeys.
  rewrite CalculateVisualProgress_unfold.
  destruct (paints_total w rects firstPaint) as [paints total].
  destruct Hinv as [Htotal _ Hzero Hempty]. simpl in *.
  case_bool_decide as Hnz; [|done].
  destruct (decide (firstPaint = 0)) as [->|Hne].
  - destruct (two_buckets_shape_zero paints Hkeys Hzero) as [area ->].
    by rewrite sorted_paints_singleton.
  - destruct (two_buckets_shape firstPaint paints Hkeys Hne (Hempty Hne))
      as [-> | [area ->]].
    + exfalso. apply Hnz. rewrite Htotal. unfold paints_sum.
      rewrite map_to_list_singleton. simpl. ring.
    + rewrite sorted_paints_zero_and by (revert Hfp Hne; generalize firstPaint; intros; qc_lra).
      simpl. unfold integrate. simpl.
      assert ((0 + 0) / total = 0) as -> by (rewrite Qcplus_0_l; apply Qc_div_0).
      rewrite (bool_decide_eq_true_2 (0 < firstPaint - 0))
        by (revert Hfp Hne; generalize firstPaint; intros; qc_lra).
      simpl. ring.
Qed.

(** *** Pages without any first-paint signal *)

Lemma paint_tm_unresolved firstPaint r :
  JS.truthy (r_tm r) = false → paint_tm firstPaint r = firstPaint.
Proof. unfold paint_tm. destruct (r_tm r); [|done]. by intros ->. Qed.

Lemma timed_rects_no_requests w firstPaint :
  Forall (λ r, paint_tm firstPaint r = firstPaint) (timed_rects w []).
Proof.
  unfold timed_rects, GetRectTimings. apply Forall_fmap, Forall_forall.
  intros r _. by apply paint_tm_unresolved.
Qed.

(** C1, as amended.  On a page with no first-paint time of the browser,
    no usable Chrome first-paint time, an empty head and an empty resource
    list, [GetFirstPaint] yields [responseStart - navigationStart], and
    the script returns a number, never [undefined]: that same number
    whenever it is not negative. *)
Theorem C1_no_signal_yields_response_start (w : Window) :
  JS.truthy (msFirstPaint w) = false →
  vendor_signal w = None →
  head w = [] →
  resources w = Some [] →
  GetFirstPaint w [] = responseStart w - navigationStart w ∧
  ∃ SpeedIndex, RUMSpeedIndex w = Some SpeedIndex ∧
    (0 ≤ responseStart w - navigationStart w →
     SpeedIndex = responseStart w - navigationStart w).
Proof.
  intros Hnative Hvendor Hhead Hres.
  assert (GetFirstPaint w [] = responseStart w - navigationStart w) as Hfp.
  { by rewrite GetFirstPaint_cases, Hvendor, (native_signal_falsy w Hnative). }
  split; [done|].
  unfold RUMSpeedIndex. rewrite Hres. simpl. rewrite Hfp.
  eexists. split; [done|]. intros Hpos.
  apply single_bucket_SpeedIndex; [|apply timed_rects_no_requests|done].
  apply timed_rects_nonneg.
Qed.

(** *** Pages without rectangles *)

Lemma accumulate_nil_inv total accumulated l :
  accumulate total accumulated l = [] → l = [].
Proof. by destruct l as [|[??] ?]. Qed.

Lemma background_total_pos w firstPaint :
  0 < page_pixels w → 0 < (paints_total w [] firstPaint).2.
Proof.
  intros Hpx. unfold paints_total, paint_background. simpl.
  rewrite bool_decide_eq_true_2 by done. simpl.
  assert (0 < JS.max (page_pixels w - 0) 0) as Hmax.
  { eapply Qclt_le_trans; [|apply JSFacts.max_l]. revert Hpx.
    generalize (page_pixels w). intros. qc_lra. }
  rewrite Qcplus_0_l. by apply Qcmult_pos_pos.
Qed.

(** C7, as amended.  Whenever [total] is 0, [progress] is empty.  With no
    rectangle at all, [progress] is empty and the speed index is the
    first-paint time when the page has no pixels; when the page has
    pixels, the background paint makes [total] positive and [progress]
    non-empty, and the speed index is still the first-paint time,
    provided that time is not negative. *)
Theorem C7_no_rects (w : Window) (firstPaint : Qc) :
  (∀ rects, (paints_total w rects firstPaint).2 = 0 →
     CalculateVisualProgress w rects firstPaint = []) ∧
  (¬ 0 < page_pixels w →
     CalculateVisualProgress w [] firstPaint = [] ∧
     CalculateSpeedIndex (CalculateVisualProgress w [] firstPaint) firstPaint
     = firstPaint) ∧
  (0 < page_pixels w →
     CalculateVisualProgress w [] firstPaint ≠ [] ∧
     (0 ≤ firstPaint →
      CalculateSpeedIndex (CalculateVisualProgress w [] firstPaint) firstPaint
      = firstPaint)).
Proof.
  split_and!.
  - intros rects Hzero. rewrite CalculateVisualProgress_unfold.
    by rewrite bool_decide_eq_false_2 by auto.
  - intros Hpx.
    assert (CalculateVisualProgress w [] firstPaint = []) as ->; [|done].
    by rewrite CalculateVisualProgress_unfold, paints_total_nil.
  - intros Hpx. split.
    + pose proof (background_total_pos w firstPaint Hpx) as Hpos.
      pose proof (paints_total_inv w [] firstPaint (Forall_nil_2 _)) as Hinv.
      rewrite CalculateVisualProgress_unfold.
      rewrite bool_decide_eq_true_2
        by (intros Heq; rewrite Heq in Hpos; by apply Qclt_not_eq in Hpos).
      intros Hnil%accumulate_nil_inv.
      by apply (paints_nonempty firstPaint _ Hinv).
    + intros Hfp. by apply single_bucket_SpeedIndex.
Qed.

(** *** The two-bucket page *)

(** Closed equations between structures that hold numbers. *)
Ltac qc_struct :=
  lazymatch goal with
  | |- @eq Qc _ _ => apply Qc_is_canon; vm_compute; reflexivity
  | |- _ => first [reflexivity | f_equal; qc_struct]
  end.

Definition rect_at (url : string) (rect : Intersect) (area tm : Qc) : Rect :=
  {| r_url := url; r_area := area; r_rect := rect; r_tm := Some tm |}.

Definition point (tm area progress : Qc) : Progress :=
  {| p_tm := tm; p_area := area; p_progress := progress |}.

(** C6. With first paint at 100, one rectangle of area 50 painted at
    100, another of area 50 painted at 300, and a page of at most 100
    pixels (the rectangles cover it, the background adds no area),
    [progress] holds the value 1/2 at time 100 and the value 1 at time
    300, after the empty entry of time 0, and the speed index is 200. *)
Theorem C6_two_bucket_integral (w : Window) (url1 url2 : string)
    (rect1 rect2 : Intersect) :
  page_pixels w ≤ Qz 100 →
  let rects := [rect_at url1 rect1 (Qz 50) (Qz 100);
                rect_at url2 rect2 (Qz 50) (Qz 300)] in
  let progress := CalculateVisualProgress w rects (Qz 100) in
  progress = [point 0 0 0; point (Qz 100) (Qz 50) (Q2Qc (1 # 2));
              point (Qz 300) (Qz 50) 1] ∧
  CalculateSpeedIndex progress (Qz 100) = Qz 200.
Proof.
  intros Hpx rects progress.
  assert (progress = [point 0 0 0; point (Qz 100) (Qz 50) (Q2Qc (1 # 2));
                      point (Qz 300) (Qz 50) 1]) as Hprogress.
  { subst progress rects. unfold CalculateVisualProgress, paints_total.
    assert (foldl (paint_step (Qz 100)) ({[0 := 0]}, 0)
              [rect_at url1 rect1 (Qz 50) (Qz 100);
               rect_at url2 rect2 (Qz 50) (Qz 300)]
            = (paints_add (Qz 300) (Qz 50) (paints_add (Qz 100) (Qz 50) {[0 := 0]}),
               Qz 100)) as ->.
    { vm_compute. qc_struct. }
    unfold paint_background. case_bool_decide.
    - assert (JS.max (page_pixels w - Qz 100) 0 = 0) as ->.
      { unfold JS.max. revert Hpx. generalize (page_pixels w) (Qz 100).
        intros px c Hpx. case_decide; [done|]. qc_lra. }
      rewrite Qcmult_0_l. vm_compute. qc_struct.
    - vm_compute. qc_struct. }
  split; [done|]. rewrite Hprogress. vm_compute. qc_struct.
Qed.

(** * The properties at concrete pages *)

(** Closed comparisons of numbers. *)
Ltac qc_neq :=
  let H := fresh in
  intros H; apply (f_equal this) in H; vm_compute in H; discriminate.

Module Pages.

Definition client_rect (top left bottom right : Z) : ClientRect :=
  {| cr_top := Qz top; cr_left := Qz left; cr_bottom := Qz bottom;
     cr_right := Qz right |}.

Definition img (src : string) (rect : ClientRect) : Element :=
  {| el_tagName := "IMG"; el_src := src; el_background_image := "none";
     el_boundingClientRect := Some rect |}.

Definition div (background_image : string) (rect : ClientRect) : Element :=
  {| el_tagName := "DIV"; el_src := ""; el_background_image := background_image;
     el_boundingClientRect := Some rect |}.

(** An image above the viewport. *)
Definition offscreen : Element := img "http://h/c.png" (client_rect (-20) 0 (-5) 10).

Definition two_images_requests : list ResourceEntry :=
  [entry "http://h/a.png" (Qz 100) "img"; entry "http://h/b.png" (Qz 300) "css"].

(** A page of 10 by 10 pixels: an image in its upper half, a block with a
    background image that the viewport clips to its lower half, and an
    image out of sight.  The response starts 100 ms after the navigation;
    the two visible images are complete at 100 ms and at 300 ms. *)
Definition two_images : Window := {|
  innerWidth := Some (Qz 10); innerHeight := Some (Qz 10);
  clientWidth := Qz 10; clientHeight := Qz 10;
  elements := [img "http://h/a.png" (client_rect 0 0 5 10);
               div "url(http://h/b.png)" (client_rect 5 (-3) 50 10);
               offscreen];
  head := [];
  navigationStart := Qz 1000; responseStart := Qz 1100;
  msFirstPaint := None; chrome_loadTimes := None;
  resources := Some two_images_requests
|}.

Definition upper_half : Intersect :=
  {| i_top := 0; i_left := 0; i_bottom := Qz 5; i_right := Qz 10; i_area := Qz 50 |}.
Definition lower_half : Intersect :=
  {| i_top := Qz 5; i_left := 0; i_bottom := Qz 10; i_right := Qz 10; i_area := Qz 50 |}.

Definition rect_a : Rect :=
  {| r_url := "http://h/a.png"; r_area := Qz 50; r_rect := upper_half; r_tm := None |}.
Definition rect_b : Rect :=
  {| r_url := "http://h/b.png"; r_area := Qz 50; r_rect := lower_half; r_tm := None |}.

(** A page of 10 by 10 pixels with no element, no first-paint signal, an
    empty head and no resource; the response starts after 200 ms. *)
Definition blank : Window := {|
  innerWidth := Some (Qz 10); innerHeight := Some (Qz 10);
  clientWidth := Qz 10; clientHeight := Qz 10;
  elements := []; head := [];
  navigationStart := Qz 1000; responseStart := Qz 1200;
  msFirstPaint := None; chrome_loadTimes := None;
  resources := Some []
|}.

(** The same page in a window without pixels. *)
Definition no_pixels : Window := {|
  innerWidth := None; innerHeight := None;
  clientWidth := 0; clientHeight := 0;
  elements := []; head := [];
  navigationStart := Qz 1000; responseStart := Qz 1200;
  msFirstPaint := None; chrome_loadTimes := None;
  resources := Some []
|}.

(** The blank page with a response that starts before the navigation. *)
Definition early_response : Window := {|
  innerWidth := Some (Qz 10); innerHeight := Some (Qz 10);
  clientWidth := Qz 10; clientHeight := Qz 10;
  elements := []; head := [];
  navigationStart := Qz 1000; responseStart := Qz 900;
  msFirstPaint := None; chrome_loadTimes := None;
  resources := Some []
|}.

Definition with_signals (native : option Qc) (chrome : option ChromeTimes) : Window := {|
  innerWidth := Some (Qz 10); innerHeight := Some (Qz 10);
  clientWidth := Qz 10; clientHeight := Qz 10;
  elements := []; head := [];
  navigationStart := Qz 1000; responseStart := Qz 1200;
  msFirstPaint := native; chrome_loadTimes := chrome;
  resources := Some []
|}.

(** Chrome times with a start of load at 10 and a first paint at 12, and
    no request time. *)
Definition chrome_no_request : ChromeTimes :=
  {| ct_firstPaintTime := Some (Qz 12); ct_startLoadTime := Some (Qz 10);
     ct_requestTime := None |}.

(** Chrome times with a start of load at 2, a request at 4 and a first
    paint at 10. *)
Definition chrome_both_starts : ChromeTimes :=
  {| ct_firstPaintTime := Some (Qz 10); ct_startLoadTime := Some (Qz 2);
     ct_requestTime := Some (Qz 4) |}.

(** The browser reports a first paint at 1500 (500 ms after the
    navigation start). *)
Definition native_only : Window := with_signals (Some (Qz 1500)) None.
Definition native_and_chrome : Window :=
  with_signals (Some (Qz 1500)) (Some chrome_no_request).
Definition chrome_only : Window := with_signals None (Some chrome_both_starts).

(** The page of claim C5. *)
Definition critical_chain : Window := {|
  innerWidth := Some (Qz 10); innerHeight := Some (Qz 10);
  clientWidth := Qz 10; clientHeight := Qz 10;
  elements := [];
  head := [head_script "http://h/A.js" false; head_stylesheet "http://h/B.css";
           head_script "http://h/C.js" true];
  navigationStart := Qz 1000; responseStart := Qz 1100;
  msFirstPaint := None; chrome_loadTimes := None;
  resources := Some [entry "http://h/A.js" (Qz 120) "script";
                     entry "http://h/B.css" (Qz 150) "link";
                     entry "http://h/C.js" (Qz 90) "script"]
|}.

End Pages.

Lemma two_images_GetRects : GetRects Pages.two_images = [Pages.rect_a; Pages.rect_b].
Proof. vm_compute. qc_struct. Qed.

Lemma two_images_SpeedIndex : RUMSpeedIndex Pages.two_images = Some (Qz 200).
Proof. vm_compute. qc_struct. Qed.

Lemma two_images_total :
  (paints_total Pages.two_images (timed_rects Pages.two_images Pages.two_images_requests) (Qz 100)).2 = Qz 100.
Proof. vm_compute. qc_struct. Qed.

(** The regular expression keeps its [lastIndex] from one element to the
    next: of two blocks with the same background image, the second is not
    matched. *)
Lemma exec_keeps_lastIndex :
  RegExp.exec 0 "url(http://h/b.png)" = (Some "http://h/b.png", 19%nat) ∧
  RegExp.exec 19 "url(http://h/b.png)" = (None, 0%nat).
Proof. by vm_compute. Qed.

(** C1 fails as stated: the blank page has no signal, an empty head and
    no resource, and the script returns 200 for it. *)
Lemma C1_counterexample :
  JS.truthy (msFirstPaint Pages.blank) = false ∧
  vendor_signal Pages.blank = None ∧
  head Pages.blank = [] ∧
  resources Pages.blank = Some [] ∧
  RUMSpeedIndex Pages.blank = Some (Qz 200) ∧
  RUMSpeedIndex Pages.blank ≠ None.
Proof.
  assert (RUMSpeedIndex Pages.blank = Some (Qz 200)) as Hrun.
  { vm_compute. qc_struct. }
  split_and!; try done; by rewrite Hrun.
Qed.

Lemma C1_witness :
  GetFirstPaint Pages.blank [] = responseStart Pages.blank - navigationStart Pages.blank ∧
  ∃ SpeedIndex, RUMSpeedIndex Pages.blank = Some SpeedIndex ∧
    (0 ≤ responseStart Pages.blank - navigationStart Pages.blank →
     SpeedIndex = responseStart Pages.blank - navigationStart Pages.blank).
Proof.
  apply (C1_no_signal_yields_response_start Pages.blank); reflexivity.
Defined.

Lemma C2_witness :
  let progress :=
    CalculateVisualProgress Pages.two_images (timed_rects Pages.two_images Pages.two_images_requests) (Qz 100) in
  0 < (paints_total Pages.two_images (timed_rects Pages.two_images Pages.two_images_requests) (Qz 100)).2 ∧
  StronglySorted time_lt progress ∧
  StronglySorted progress_le progress ∧
  ∃ p, last progress = Some p ∧ p_progress p = 1.
Proof.
  intros progress.
  assert (0 < (paints_total Pages.two_images (timed_rects Pages.two_images Pages.two_images_requests) (Qz 100)).2)
    as Hpos by (by rewrite two_images_total).
  destruct (C2_progress_sorted_monotone_complete Pages.two_images
              Pages.two_images_requests (Qz 100))
    as (Htime & Hprogress & Hlast).
  split_and!; [exact Hpos|exact Htime|exact Hprogress|exact (Hlast Hpos)].
Defined.

(** C3 fails as stated: with a first paint of the browser at 1500 and
    Chrome times that pass the checks, the estimate is Chrome's, 2000,
    and not the browser's, 500. *)
Lemma C3_counterexample :
  msFirstPaint Pages.native_and_chrome = Some (Qz 1500) ∧
  GetFirstPaint Pages.native_and_chrome [] = Qz 2000 ∧
  GetFirstPaint Pages.native_and_chrome []
  ≠ Qz 1500 - navigationStart Pages.native_and_chrome.
Proof.
  assert (GetFirstPaint Pages.native_and_chrome [] = Qz 2000) as Hfp.
  { vm_compute. qc_struct. }
  split_and!; try done; rewrite Hfp; qc_neq.
Qed.

Lemma C3_witness :
  GetFirstPaint Pages.native_only [] = Qz 1500 - navigationStart Pages.native_only ∧
  GetFirstPaint Pages.native_and_chrome [] = (Qz 12 - Qz 10) * Qc_of_Z 1000.
Proof.
  split.
  - refine (proj1 (C3_native_unless_vendor Pages.native_only [] (Qz 1500)
                     eq_refl _) eq_refl).
    qc_neq.
  - refine (proj2 (C3_native_unless_vendor Pages.native_and_chrome [] (Qz 1500)
                     eq_refl _) _ eq_refl).
    qc_neq.
Defined.

(** C4 fails as stated: with a start of load at 2, a request at 4 and a
    first paint at 10, the estimate is 6000, counted from the request, and
    not 8000, counted from the start of load. *)
Lemma C4_counterexample :
  chrome_loadTimes Pages.chrome_only = Some Pages.chrome_both_starts ∧
  ct_startLoadTime Pages.chrome_both_starts = Some (Qz 2) ∧
  GetFirstPaint Pages.chrome_only [] = Qz 6000 ∧
  GetFirstPaint Pages.chrome_only [] ≠ (Qz 10 - Qz 2) * Qc_of_Z 1000.
Proof.
  assert (GetFirstPaint Pages.chrome_only [] = Qz 6000) as Hfp.
  { vm_compute. qc_struct. }
  split_and!; try done; rewrite Hfp; qc_neq.
Qed.

Lemma C4_witness :
  GetFirstPaint Pages.chrome_only [] = (Qz 10 - Qz 4) * Qc_of_Z 1000 ∧
  GetFirstPaint Pages.native_and_chrome [] = (Qz 12 - Qz 10) * Qc_of_Z 1000.
Proof.
  split.
  - refine (proj1 (C4_requestTime_before_startLoadTime Pages.chrome_only []
                     Pages.chrome_both_starts (Qz 10) eq_refl eq_refl _)
                  (Qz 4) eq_refl _ _); [by vm_compute|qc_neq|by vm_compute].
  - refine (proj2 (C4_requestTime_before_startLoadTime Pages.native_and_chrome []
                     Pages.chrome_no_request (Qz 12) eq_refl eq_refl _)
                  (Qz 10) eq_refl eq_refl _); by vm_compute.
Defined.

Lemma C5_witness :
  resources Pages.critical_chain
  = Some [entry "http://h/A.js" (Qz 120) "script";
          entry "http://h/B.css" (Qz 150) "link";
          entry "http://h/C.js" (Qz 90) "script"] ∧
  GetFirstPaint Pages.critical_chain
    [entry "http://h/A.js" (Qz 120) "script";
     entry "http://h/B.css" (Qz 150) "link";
     entry "http://h/C.js" (Qz 90) "script"] = Qz 150.
Proof.
  split; [reflexivity|].
  apply (C5_critical_chain_stops Pages.critical_chain
           "http://h/A.js" "http://h/B.css" "http://h/C.js" "script" "link" "script"
           (Qz 90) []);
    first [reflexivity | discriminate | by left | by right | by vm_compute].
Defined.

Lemma C6_witness :
  page_pixels Pages.two_images ≤ Qz 100 ∧
  CalculateVisualProgress Pages.two_images
    [rect_at "http://h/a.png" Pages.upper_half (Qz 50) (Qz 100);
     rect_at "http://h/b.png" Pages.lower_half (Qz 50) (Qz 300)] (Qz 100)
  = [point 0 0 0; point (Qz 100) (Qz 50) (Q2Qc (1 # 2)); point (Qz 300) (Qz 50) 1] ∧
  CalculateSpeedIndex
    (CalculateVisualProgress Pages.two_images
       [rect_at "http://h/a.png" Pages.upper_half (Qz 50) (Qz 100);
        rect_at "http://h/b.png" Pages.lower_half (Qz 50) (Qz 300)] (Qz 100))
    (Qz 100) = Qz 200.
Proof.
  assert (page_pixels Pages.two_images ≤ Qz 100) as Hpx by (by vm_compute).
  split; [exact Hpx|].
  exact (C6_two_bucket_integral Pages.two_images "http://h/a.png" "http://h/b.png"
           Pages.upper_half Pages.lower_half Hpx).
Defined.

(** C7 fails as stated: the blank page has no rectangle, and its
    [progress] holds two entries, since the background of its 100 pixels
    is painted at first paint. *)
Lemma C7_counterexample :
  GetRects Pages.blank = [] ∧
  CalculateVisualProgress Pages.blank [] (Qz 200)
  = [point 0 0 0; point (Qz 200) (Qz 10) 1] ∧
  CalculateVisualProgress Pages.blank [] (Qz 200) ≠ [].
Proof.
  assert (CalculateVisualProgress Pages.blank [] (Qz 200)
          = [point 0 0 0; point (Qz 200) (Qz 10) 1]) as Hprogress.
  { vm_compute. qc_struct. }
  split_and!; try done; by rewrite Hprogress.
Qed.

Lemma C7_witness :
  (CalculateVisualProgress Pages.no_pixels [] (Qz 200) = [] ∧
   CalculateSpeedIndex (CalculateVisualProgress Pages.no_pixels [] (Qz 200)) (Qz 200)
   = Qz 200) ∧
  (CalculateVisualProgress Pages.blank [] (Qz 200) ≠ [] ∧
   CalculateSpeedIndex (CalculateVisualProgress Pages.blank [] (Qz 200)) (Qz 200)
   = Qz 200).
Proof.
  split.
  - apply (C7_no_rects Pages.no_pixels (Qz 200)). by vm_compute.
  - destruct (C7_no_rects Pages.blank (Qz 200)) as (_ & _ & Hpixels).
    destruct Hpixels as [Hne Hsi]; [by vm_compute|].
    split; [exact Hne|]. apply Hsi. by vm_compute.
Defined.

(** Why C1 and C7 ask for a first paint that is not negative: on the
    blank page with a response that starts 100 ms before the navigation
    start, the background is painted at -100, the entry of time 0 comes
    last, and the speed index is 0. *)
Lemma early_response_SpeedIndex :
  GetFirstPaint Pages.early_response [] = Qz (-100) ∧
  CalculateVisualProgress Pages.early_response [] (Qz (-100))
  = [point (Qz (-100)) (Qz 10) 1; point 0 0 1] ∧
  RUMSpeedIndex Pages.early_response = Some 0.
Proof. split_and!; vm_compute; qc_struct. Qed.

(** A resource list in which the name of the first image is also the
    beginning of another name, and has a beginning that is a name too. *)
Definition similar_names : list ResourceEntry :=
  [entry "http://h/a" (Qz 555) "img";
   entry "http://h/a.png" (Qz 100) "img";
   entry "http://h/a.png?v=2" (Qz 999) "img"].

Lemma C8_witness :
  [Pages.rect_a] !! 0%nat = Some Pages.rect_a ∧
  ∃ r', GetRectTimings similar_names [Pages.rect_a] !! 0%nat = Some r' ∧
    r_url r' = r_url Pages.rect_a ∧ r_area r' = r_area Pages.rect_a ∧
    r_rect r' = r_rect Pages.rect_a ∧
    ((∃ e, e ∈ similar_names ∧ re_name e = r_url Pages.rect_a ∧
           r_tm r' = Some (re_responseEnd e)) ∨
     ((∀ e, e ∈ similar_names → re_name e ≠ r_url Pages.rect_a) ∧
      r_tm r' = Some 0)) ∧
    r_tm r' = Some (default 0 (re_responseEnd <$>
                last (entries_named (r_url Pages.rect_a) similar_names))) ∧
    GetRectTimings (entries_named (r_url Pages.rect_a) similar_names)
      [Pages.rect_a] !! 0%nat = Some r'.
Proof.
  split; [reflexivity|].
  exact (C8_paint_time_exact_url similar_names [Pages.rect_a] 0 Pages.rect_a eq_refl).
Defined.

(** On that list the image gets the time 100 of the entry of its own
    name. *)
Lemma similar_names_tm :
  r_tm <$> GetRectTimings similar_names [Pages.rect_a] = [Some (Qz 100)].
Proof. vm_compute. qc_struct. Qed.

Lemma C9_witness :
  (0 < r_area Pages.rect_b ∧ inside_viewport Pages.two_images (r_rect Pages.rect_b)) ∧
  (GetElementViewportRect Pages.two_images Pages.offscreen = None ∧
   CheckElement Pages.two_images Pages.offscreen "http://h/c.png" [] = []).
Proof.
  destruct (C9_regions_positive_inside_viewport Pages.two_images) as [Hin Hout].
  split.
  - apply Hin. rewrite two_images_GetRects. apply list_elem_of_In. right. by left.
  - apply (Hout Pages.offscreen (Pages.client_rect (-20) 0 (-5) 10));
      [reflexivity|]. left. by vm_compute.
Defined.

Lemma C10_witness :
  let rects := timed_rects Pages.two_images Pages.two_images_requests in
  let progress := CalculateVisualProgress Pages.two_images rects (Qz 100) in
  0 < (paints_total Pages.two_images rects (Qz 100)).2 ∧
  ¬ bucket_at_zero Pages.two_images rects (Qz 100) ∧
  (∃ p, p ∈ progress ∧ p_tm p = 0) ∧
  (∀ p, p ∈ progress → p_tm p = 0 → p_area p = 0) ∧
  CalculateSpeedIndex (without_zero progress) (Qz 100)
  = CalculateSpeedIndex progress (Qz 100).
Proof.
  intros rects progress.
  assert (0 < (paints_total Pages.two_images rects (Qz 100)).2) as Hpos.
  { subst rects. by rewrite two_images_total. }
  assert (¬ bucket_at_zero Pages.two_images rects (Qz 100)) as Hbucket.
  { apply no_bucket_at_zero; [|qc_neq]. subst rects. rewrite two_images_total. qc_neq. }
  destruct (C10_zero_bucket_is_neutral Pages.two_images Pages.two_images_requests
              (Qz 100) Hpos) as [Hzero Hneutral].
  destruct (Hneutral Hbucket) as [Harea Hsame].
  split_and!; [exact Hpos|exact Hbucket|exact Hzero|exact Harea|exact Hsame].
Defined.

(** On the page of two images the entry of time 0 is there, and the
    speed index is 200 with it and without it. *)
Lemma two_images_progress :
  CalculateVisualProgress Pages.two_images
    (timed_rects Pages.two_images Pages.two_images_requests) (Qz 100)
  = [point 0 0 0; point (Qz 100) (Qz 50) (Q2Qc (1 # 2)); point (Qz 300) (Qz 50) 1].
Proof. vm_compute. qc_struct. Qed.

(** * Further properties of the stages *)

(** ** [GetElementViewportRect] and [GetRects] *)

Lemma max_zero_nonneg (t : Qc) : 0 ≤ t → JS.max t 0 = t.
Proof. intros Ht. unfold JS.max. case_decide; [qc_lra|done]. Qed.

Lemma min_below (b v : Qc) : b ≤ v → JS.min b v = b.
Proof. intros Hb. unfold JS.min. by rewrite decide_True. Qed.

(** X1. An element that lies inside the viewport and has a positive
    width and height keeps its own rectangle: nothing is clipped, and the
    area is its width times its height. *)
Theorem GetElementViewportRect_inside (w : Window) (el : Element)
    (elRect : ClientRect) :
  el_boundingClientRect el = Some elRect →
  0 ≤ cr_top elRect → cr_top elRect < cr_bottom elRect →
  cr_bottom elRect ≤ viewportHeight w →
  0 ≤ cr_left elRect → cr_left elRect < cr_right elRect →
  cr_right elRect ≤ viewportWidth w →
  GetElementViewportRect w el =
    Some {| i_top := cr_top elRect; i_left := cr_left elRect;
            i_bottom := cr_bottom elRect; i_right := cr_right elRect;
            i_area := (cr_bottom elRect - cr_top elRect)
                      * (cr_right elRect - cr_left elRect) |}.
Proof.
  intros Hrect Ht Htb Hb Hl Hlr Hr. unfold GetElementViewportRect.
  rewrite Hrect, !max_zero_nonneg, !min_below by done.
  rewrite !bool_decide_eq_false_2; [done|by apply Qclt_not_le..].
Qed.

Lemma GetElementViewportRect_inside_witness :
  GetElementViewportRect Pages.two_images
    (Pages.img "http://h/a.png" (Pages.client_rect 0 0 5 10)) =
    Some {| i_top := Qz 0; i_left := Qz 0; i_bottom := Qz 5; i_right := Qz 10;
            i_area := (Qz 5 - Qz 0) * (Qz 10 - Qz 0) |}.
Proof.
  apply (GetElementViewportRect_inside Pages.two_images _
           (Pages.client_rect 0 0 5 10)); first [reflexivity | by vm_compute].
Defined.

(** X2. No rectangle of [rects] is larger than the viewport, nor than
    the page whose pixels [CalculateVisualProgress] counts (the sum of the
    areas can be, since overlapping rectangles are all counted). *)
Theorem GetRects_area_bounded (w : Window) (r : Rect) :
  r ∈ GetRects w →
  r_area r ≤ viewportWidth w * viewportHeight w ∧ r_area r ≤ page_pixels w.
Proof.
  intros Hr. pose proof (GetRects_ok w) as Hok.
  rewrite Forall_forall in Hok.
  destruct (Hok r Hr) as (Harea & Heq & Ht & Htb & Hb & Hl & Hlr & Hrr).
  pose proof (viewportWidth_le_page w) as Hw.
  pose proof (viewportHeight_le_page w) as Hh.
  rewrite Heq in Harea |- *. unfold page_pixels.
  revert Harea Ht Htb Hb Hl Hlr Hrr Hw Hh.
  generalize (JS.max (clientWidth w) (JS.or_else (innerWidth w) 0))
    (JS.max (clientHeight w) (JS.or_else (innerHeight w) 0))
    (viewportWidth w) (viewportHeight w)
    (i_top (r_rect r)) (i_bottom (r_rect r)) (i_left (r_rect r)) (i_right (r_rect r)).
  intros pw ph vw vh t b l r'. intros.
  assert (0 ≤ b - t ∧ b - t ≤ vh ∧ vh ≤ ph) as (? & ? & ?) by (split_and!; qc_lra).
  assert (0 ≤ r' - l ∧ r' - l ≤ vw ∧ vw ≤ pw) as (? & ? & ?) by (split_and!; qc_lra).
  revert H H0 H1 H2 H3 H4. generalize (b - t) (r' - l). intros.
  split; qc_nra.
Qed.

Lemma GetRects_area_bounded_witness :
  r_area Pages.rect_a ≤ viewportWidth Pages.two_images * viewportHeight Pages.two_images ∧
  r_area Pages.rect_a ≤ page_pixels Pages.two_images.
Proof.
  apply (GetRects_area_bounded Pages.two_images Pages.rect_a).
  rewrite two_images_GetRects. by left.
Defined.

(** What [CheckElement] pushes: a non-empty URL and no time yet. *)
Definition fresh_rect (r : Rect) : Prop := r_url r ≠ "" ∧ r_tm r = None.

Lemma CheckElement_fresh w el url rects :
  Forall fresh_rect rects → Forall fresh_rect (CheckElement w el url rects).
Proof.
  intros Hrects. unfold CheckElement, JS.truthy_str.
  case_bool_decide as Hurl; [|done].
  destruct (GetElementViewportRect w el); [|done].
  apply Forall_app. split; [done|]. by apply Forall_singleton.
Qed.

Lemma CheckElement_length w el url rects :
  (length rects ≤ length (CheckElement w el url rects) ≤ S (length rects))%nat.
Proof.
  unfold CheckElement. destruct (JS.truthy_str url); [|lia].
  destruct (GetElementViewportRect w el); [|lia].
  rewrite length_app. simpl. lia.
Qed.

Lemma GetRects_step_fresh w st el :
  Forall fresh_rect st.2 → Forall fresh_rect (GetRects_step w st el).2.
Proof.
  destruct st as [lastIndex rects]. simpl. intros Hrects.
  assert (Forall fresh_rect
            (if bool_decide (el_tagName el = "IMG")
             then CheckElement w el (el_src el) rects else rects)) as Himg.
  { case_bool_decide; [by apply CheckElement_fresh|done]. }
  destruct (JS.truthy_str (el_background_image el)); [|done].
  destruct (RegExp.exec lastIndex (el_background_image el)) as [[url|] ?]; simpl;
    [by apply CheckElement_fresh|done].
Qed.

Lemma GetRects_step_length w st el :
  (length st.2 ≤ length (GetRects_step w st el).2 ≤ 2 + length st.2)%nat.
Proof.
  destruct st as [lastIndex rects]. simpl.
  pose proof (CheckElement_length w el (el_src el) rects) as Himg.
  set (rects' := if bool_decide (el_tagName el = "IMG")
                 then CheckElement w el (el_src el) rects else rects).
  assert (length rects ≤ length rects' ≤ S (length rects))%nat as Hrects'.
  { subst rects'. case_bool_decide; lia. }
  destruct (JS.truthy_str (el_background_image el)); [|simpl; lia].
  destruct (RegExp.exec lastIndex (el_background_image el)) as [[url|] ?]; simpl;
    [|lia].
  pose proof (CheckElement_length w el url rects'). lia.
Qed.

(** X3. [GetRects] pushes at most two rectangles per element (one for an
    image, one for a background image); each has a non-empty URL and, as
    [GetRectTimings] has not run yet, no time. *)
Theorem GetRects_fresh_and_few (w : Window) :
  (length (GetRects w) ≤ 2 * length (elements w))%nat ∧
  Forall fresh_rect (GetRects w).
Proof.
  unfold GetRects.
  assert (∀ els st,
            Forall fresh_rect st.2 →
            (length (foldl (GetRects_step w) st els).2
             ≤ 2 * length els + length st.2)%nat ∧
            Forall fresh_rect (foldl (GetRects_step w) st els).2) as Hfold.
  { induction els as [|el els IH]; intros st Hst; simpl; [split; [lia|done]|].
    destruct (IH (GetRects_step w st el)) as [Hlen Hfresh];
      [by apply GetRects_step_fresh|].
    split; [|done]. pose proof (GetRects_step_length w st el). lia. }
  destruct (Hfold (elements w) (0%nat, [])) as [Hlen Hfresh]; [done|].
  split; [|done]. simpl in Hlen. lia.
Qed.

(** ** The regular expression and its [lastIndex] *)

Module RegExpFacts.
Import RegExp.

Lemma last_paren_None s : last_paren s = None ↔ ")"%char ∉ s.
Proof.
  induction s as [|c s IH]; simpl.
  - split; [intros _; apply not_elem_of_nil|done].
  - rewrite not_elem_of_cons. destruct (last_paren s) as [j|].
    + split; [done|]. intros [_ Hs]. by apply IH in Hs.
    + case_bool_decide as Hc.
      * split; [done|]. intros [Hne _]. by subst.
      * split; [|done]. intros _. split; [congruence|by apply IH].
Qed.

Lemma last_paren_Some s j :
  last_paren s = Some j → (j < length s)%nat ∧ ")"%char ∉ drop (S j) s.
Proof.
  revert j. induction s as [|c s IH]; intros j; simpl; [done|].
  destruct (last_paren s) as [j'|] eqn:Hs.
  - intros [= <-]. destruct (IH j' eq_refl) as [Hlt Hdrop]. split; [lia|done].
  - case_bool_decide; [|done]. intros [= <-]. split; [lia|].
    rewrite drop_0. by apply last_paren_None.
Qed.

Lemma starts_with_ci_length pat s :
  starts_with_ci pat s = true → (length pat ≤ length s)%nat.
Proof.
  revert s. induction pat as [|p pat IH]; intros [|c s]; simpl; try done; try lia.
  intros [_ Hs]%andb_true_iff. apply IH in Hs. lia.
Qed.

Lemma line_length s : (length (line s) ≤ length s)%nat.
Proof.
  induction s as [|c s IH]; simpl; [lia|].
  destruct (line_terminator c); simpl; lia.
Qed.



(** A string without a line terminator. *)
Definition single_line (s : list ascii) : Prop :=
  Forall (λ c, line_terminator c = false) s.

Lemma line_single s : single_line s → line s = s.
Proof.
  induction 1 as [|c s Hc _ IH]; simpl; [done|]. by rewrite Hc, IH.
Qed.

Lemma single_line_drop n s : single_line s → single_line (drop n s).
Proof. apply Forall_drop. Qed.

(** The pattern text at the head of the captured group. *)
Definition http : list ascii := list_ascii_of_string "http".

Lemma match_here_Some s g len :
  match_here s = Some (g, len) →
  (9 ≤ len ≤ length s)%nat ∧ starts_with_ci http g = true ∧
  (single_line s → ")"%char ∉ drop len s).
Proof.
  unfold match_here.
  destruct (starts_with_ci _ s) eqn:Hstart; [|done].
  destruct (last_paren (line (drop 8 s))) as [j|] eqn:Hparen; [|done].
  intros [= <- <-].
  pose proof (starts_with_ci_length _ _ Hstart) as Hlen. simpl in Hlen.
  destruct (last_paren_Some _ _ Hparen) as [Hj Hafter].
  pose proof (line_length (drop 8 s)) as Hline. rewrite length_drop in Hline.
  split_and!.
  - lia.
  - lia.
  - destruct s as [|c1 [|c2 [|c3 [|c4 [|c5 [|c6 [|c7 [|c8 s]]]]]]]];
      simpl in Hlen; try lia.
    simpl in Hstart.
    apply andb_true_iff in Hstart as [H0 Hstart].
    apply andb_true_iff in Hstart as [H1 Hstart].
    apply andb_true_iff in Hstart as [H2 Hstart].
    apply andb_true_iff in Hstart as [H2' Hstart].
    apply andb_true_iff in Hstart as [H3 Hstart].
    apply andb_true_iff in Hstart as [H4 Hstart].
    apply andb_true_iff in Hstart as [H5 Hstart].
    apply andb_true_iff in Hstart as [H6 Hstart].
    simpl. by rewrite H3, H4, H5, H6.
  - intros Hsingle. rewrite line_single in Hafter by (by apply single_line_drop).
    rewrite drop_drop in Hafter.
    by replace (8 + S j)%nat with (8 + j + 1)%nat in Hafter by lia.
Qed.

Lemma search_Some s i g e :
  search s i = Some (g, e) →
  (i + 9 ≤ e ≤ i + length s)%nat ∧ starts_with_ci http g = true ∧
  (single_line s → ")"%char ∉ drop (e - i) s).
Proof.
  revert i. induction s as [|c s IH]; intros i; simpl.
  - destruct (match_here []) as [[g' len]|] eqn:Hhere; [|done].
    apply match_here_Some in Hhere as ([? Hlen] & _). simpl in Hlen. lia.
  - destruct (match_here (c :: s)) as [[g' len]|] eqn:Hhere.
    + intros [= <- <-]. apply match_here_Some in Hhere as (Hlen & Hg & Hafter).
      simpl in Hlen. split_and!; [lia..|done|].
      intros Hs. replace (i + len - i)%nat with len by lia. auto.
    + intros Hs. destruct (IH _ Hs) as (Hlen & Hg & Hafter).
      split_and!; [lia..|done|].
      intros [_ Hsingle]%Forall_cons.
      replace (e - i)%nat with (S (e - S i)) by lia. simpl. auto.
Qed.


End RegExpFacts.

(** X4. A match of [re.exec] moves [lastIndex] forward, by at least the
    nine characters of the shortest match and never beyond the end of the
    string, and its group starts with "http" in some spelling of the
    case, so that it is not empty; a failure resets [lastIndex] to 0. *)
Theorem exec_lastIndex (lastIndex : nat) (str : string) :
  (∀ url e, RegExp.exec lastIndex str = (Some url, e) →
     (lastIndex + 9 ≤ e ≤ length (list_ascii_of_string str))%nat ∧
     RegExp.starts_with_ci RegExpFacts.http (list_ascii_of_string url) = true ∧
     url ≠ "") ∧
  (∀ e, RegExp.exec lastIndex str = (None, e) → e = 0%nat).
Proof.
  unfold RegExp.exec. split.
  - intros url e. case_decide as Hlen; [done|].
    destruct (RegExp.search _ _) as [[g e']|] eqn:Hsearch; [|done].
    intros [= <- <-]. apply RegExpFacts.search_Some in Hsearch as (He & Hg & _).
    rewrite length_drop in He. rewrite list_ascii_of_string_of_list_ascii.
    split; [lia|]. split; [done|].
    intros Hg'. apply (f_equal list_ascii_of_string) in Hg'.
    rewrite list_ascii_of_string_of_list_ascii in Hg'. by rewrite Hg' in Hg.
  - intros e. case_decide; [by intros [= <-]|].
    destruct (RegExp.search _ _) as [[g e']|]; [done|]. by intros [= <-].
Qed.

Lemma exec_lastIndex_witness :
  RegExp.exec 0 "url(http://h/b.png)" = (Some "http://h/b.png", 19%nat) ∧
  ((0 + 9 ≤ 19 ≤ length (list_ascii_of_string "url(http://h/b.png)"))%nat ∧
   RegExp.starts_with_ci RegExpFacts.http (list_ascii_of_string "http://h/b.png") = true ∧
   "http://h/b.png" ≠ "") ∧
  RegExp.exec 0 "none" = (None, 0%nat).
Proof.
  assert (RegExp.exec 0 "url(http://h/b.png)" = (Some "http://h/b.png", 19%nat))
    as Hexec by (by vm_compute).
  split; [exact Hexec|]. split; [|by vm_compute].
  exact (proj1 (exec_lastIndex 0 "url(http://h/b.png)") _ _ Hexec).
Defined.





(** ** The head's critical resources and the fallback scan *)

(** The element [el] of the head makes [url] critical: it is a script
    with that source that is not asynchronous, or a style sheet link with
    that address. *)
Definition makes_critical (el : HeadElement) (url : string) : Prop :=
  (he_tagName el = "SCRIPT" ∧ he_src el = url ∧ url ≠ "" ∧ he_async el = false) ∨
  (he_tagName el = "LINK" ∧ he_rel el = "stylesheet" ∧ he_href el = url ∧ url ≠ "").

Lemma headURLs_step_elem headURLs el url :
  url ∈ headURLs_step headURLs el ↔ url ∈ headURLs ∨ makes_critical el url.
Proof.
  unfold headURLs_step, makes_critical, JS.truthy_str.
  destruct (he_async el); simpl;
    repeat case_bool_decide; simpl;
    rewrite ?elem_of_union, ?elem_of_singleton;
    intuition (subst; eauto; congruence).
Qed.

(** X6. The critical set holds exactly the non-empty sources of the
    head's scripts that are not asynchronous and the non-empty addresses
    of its style sheet links: an asynchronous script, a link of another
    relation and an element of another tag add nothing. *)
Theorem headURLs_of_elem (headElements : list HeadElement) (url : string) :
  url ∈ headURLs_of headElements ↔
  ∃ el, el ∈ headElements ∧ makes_critical el url.
Proof.
  unfold headURLs_of.
  assert (∀ els headURLs,
            url ∈ foldl headURLs_step headURLs els ↔
            url ∈ headURLs ∨ ∃ el, el ∈ els ∧ makes_critical el url) as Hfold.
  { induction els as [|el els IH]; intros headURLs; simpl.
    - split; [by left|]. intros [?|(el & Hel & _)]; [done|].
      by apply not_elem_of_nil in Hel.
    - rewrite IH, headURLs_step_elem. split.
      + intros [[?|?]|(el' & ? & ?)]; [by left|right..].
        * exists el. split; [by left|done].
        * exists el'. split; [by right|done].
      + intros [?|(el' & Hel & ?)]; [by left; left|].
        apply elem_of_cons in Hel as [->|?]; [by left; right|].
        right. by exists el'. }
  rewrite Hfold. split; [|by right].
  intros [Hempty|?]; [|done]. by apply not_elem_of_empty in Hempty.
Qed.

(** The test of lines 150-152 on an entry, apart from [doneCritical]. *)
Definition is_critical (w : Window) (r : ResourceEntry) : bool :=
  bool_decide (re_name r ∈ headURLs_of (head w))
  && (bool_decide (re_initiatorType r = "script")
      || bool_decide (re_initiatorType r = "link")).

Lemma critical_step_not_done w firstPaint r :
  critical_step (headURLs_of (head w)) (false, firstPaint) r =
    if is_critical w r
    then (false, if bool_decide (firstPaint < re_responseEnd r)
                 then re_responseEnd r else firstPaint)
    else (true, firstPaint).
Proof. done. Qed.

Lemma critical_scan_prefix w firstPaint prefix :
  Forall (λ r, is_critical w r = true) prefix →
  (foldl (critical_step (headURLs_of (head w))) (false, firstPaint) prefix).1 = false.
Proof.
  intros Hprefix. revert firstPaint.
  induction Hprefix as [|r prefix Hr _ IH]; intros firstPaint; [done|].
  cbn [foldl]. rewrite critical_step_not_done, Hr. apply IH.
Qed.

(** [firstPaint] never goes down during the scan. *)
Lemma critical_scan_mono headURLs st requests :
  st.2 ≤ (foldl (critical_step headURLs) st requests).2.
Proof.
  revert st. induction requests as [|r requests IH]; intros st; [done|].
  simpl. etrans; [|apply IH].
  destruct st as [doneCritical firstPaint]. unfold critical_step.
  destruct (_ && _ && _); simpl; [|done].
  case_bool_decide; [by apply Qclt_le_weak|done].
Qed.

(** X7. The scan of the resource entries ends at the first entry that
    is not critical: with entries that are all critical before it, the
    estimate is the one computed from those entries alone, whatever
    follows. *)
Theorem GetFirstPaint_stops_at_first_non_critical (w : Window)
    (prefix rest : list ResourceEntry) (r : ResourceEntry) :
  Forall (λ r, is_critical w r = true) prefix →
  is_critical w r = false →
  GetFirstPaint w (prefix ++ r :: rest) = GetFirstPaint w prefix.
Proof.
  intros Hprefix Hr. rewrite !GetFirstPaint_cases.
  destruct (vendor_signal w); [done|]. destruct (native_signal w); [done|].
  unfold firstPaint_fallback. rewrite foldl_app.
  pose proof (critical_scan_prefix w (responseStart w - navigationStart w)
                prefix Hprefix) as Hdone.
  destruct (foldl _ _ prefix) as [doneCritical firstPaint]. simpl in Hdone.
  subst doneCritical. cbn [foldl].
  by rewrite critical_step_not_done, Hr, critical_done.
Qed.

Lemma GetFirstPaint_stops_at_first_non_critical_witness :
  GetFirstPaint Pages.critical_chain
    ([entry "http://h/A.js" (Qz 120) "script"; entry "http://h/B.css" (Qz 150) "link"]
     ++ entry "http://h/C.js" (Qz 90) "script"
        :: [entry "http://h/A.js" (Qz 900) "script"])
  = GetFirstPaint Pages.critical_chain
      [entry "http://h/A.js" (Qz 120) "script"; entry "http://h/B.css" (Qz 150) "link"].
Proof.
  apply (GetFirstPaint_stops_at_first_non_critical Pages.critical_chain).
  - repeat constructor.
  - reflexivity.
Defined.

Lemma critical_scan_attained w firstPaint requests :
  let result := (foldl (critical_step (headURLs_of (head w)))
                   (false, firstPaint) requests).2 in
  result = firstPaint ∨
  ∃ r, r ∈ requests ∧ is_critical w r = true ∧ result = re_responseEnd r.
Proof.
  revert firstPaint. induction requests as [|r requests IH]; intros firstPaint;
    cbn [foldl]; [by left|].
  rewrite critical_step_not_done. destruct (is_critical w r) eqn:Hr.
  - destruct (IH (if bool_decide (firstPaint < re_responseEnd r)
                  then re_responseEnd r else firstPaint))
      as [Heq | (r' & ? & ? & ?)].
    + rewrite Heq. case_bool_decide; [|by left].
      right. exists r. split; [by left|done].
    + right. exists r'. split; [by right|done].
  - rewrite critical_done. by left.
Qed.

(** X8. Without a first-paint signal the estimate is the time of the
    response start, or the completion time of a critical entry of the
    resource list; it is not below the response start, and not below the
    completion time of any entry of a leading run of critical entries. *)
Theorem GetFirstPaint_fallback_bounds (w : Window) (requests : list ResourceEntry) :
  JS.truthy (msFirstPaint w) = false →
  vendor_signal w = None →
  responseStart w - navigationStart w ≤ GetFirstPaint w requests ∧
  (GetFirstPaint w requests = responseStart w - navigationStart w ∨
   ∃ r, r ∈ requests ∧ is_critical w r = true ∧
        GetFirstPaint w requests = re_responseEnd r) ∧
  (∀ prefix rest, requests = (prefix ++ rest)%list →
     Forall (λ r, is_critical w r = true) prefix →
     Forall (λ r, re_responseEnd r ≤ GetFirstPaint w requests) prefix).
Proof.
  intros Hnative Hvendor.
  rewrite GetFirstPaint_cases, Hvendor, (native_signal_falsy w Hnative).
  unfold firstPaint_fallback. split_and!.
  - apply (critical_scan_mono _ (false, _)).
  - apply critical_scan_attained.
  - intros prefix rest -> Hprefix. rewrite foldl_app.
    generalize (responseStart w - navigationStart w).
    induction Hprefix as [|r prefix Hr _ IH]; intros firstPaint; [done|].
    cbn [foldl]. rewrite critical_step_not_done, Hr.
    constructor; [|apply IH].
    etrans; [|apply critical_scan_mono].
    etrans; [|apply critical_scan_mono]. simpl.
    case_bool_decide as Hlt; [done|]. by apply Qcnot_lt_le.
Qed.

Lemma GetFirstPaint_fallback_bounds_witness :
  let requests := [entry "http://h/A.js" (Qz 120) "script";
                   entry "http://h/B.css" (Qz 150) "link";
                   entry "http://h/C.js" (Qz 90) "script"] in
  responseStart Pages.critical_chain - navigationStart Pages.critical_chain
  ≤ GetFirstPaint Pages.critical_chain requests ∧
  (GetFirstPaint Pages.critical_chain requests
   = responseStart Pages.critical_chain - navigationStart Pages.critical_chain ∨
   ∃ r, r ∈ requests ∧ is_critical Pages.critical_chain r = true ∧
        GetFirstPaint Pages.critical_chain requests = re_responseEnd r) ∧
  Forall (λ r, re_responseEnd r ≤ GetFirstPaint Pages.critical_chain requests)
    [entry "http://h/A.js" (Qz 120) "script"; entry "http://h/B.css" (Qz 150) "link"].
Proof.
  intros requests.
  destruct (GetFirstPaint_fallback_bounds Pages.critical_chain requests eq_refl eq_refl)
    as (Hlow & Hattained & Hprefix).
  split; [exact Hlow|]. split; [exact Hattained|].
  apply (Hprefix _ [entry "http://h/C.js" (Qz 90) "script"]); [reflexivity|].
  repeat constructor.
Defined.

(** ** The first-paint signals *)

Lemma vendor_signal_nonneg w v : vendor_signal w = Some v → 0 ≤ v.
Proof.
  unfold vendor_signal, firstPaint_chrome.
  destruct (chrome_loadTimes w) as [chromeTimes|]; [|done].
  destruct (ct_firstPaintTime chromeTimes) as [firstPaintTime|]; [|done].
  case_bool_decide; [|done].
  destruct (chrome_startTime chromeTimes) as [startTime|]; [|done].
  case_bool_decide as Hle; [|done]. intros [= <-].
  apply Qc_mult_nonneg; [|done]. revert Hle.
  generalize firstPaintTime startTime. intros. qc_lra.
Qed.

(** The timings of the page are in order: neither the browser's
    first-paint time, if it reports one, nor the response start is before
    the navigation start. *)
Definition timings_in_order (w : Window) : Prop :=
  (∀ m, msFirstPaint w = Some m → navigationStart w ≤ m) ∧
  navigationStart w ≤ responseStart w.

Lemma firstPaint_nonneg w requests :
  timings_in_order w → 0 ≤ GetFirstPaint w requests.
Proof.
  intros [Hnative Hstart]. rewrite GetFirstPaint_cases.
  destruct (vendor_signal w) as [v|] eqn:Hvendor.
  { by apply (vendor_signal_nonneg w). }
  unfold native_signal, firstPaint_native.
  destruct (msFirstPaint w) as [m|] eqn:Hm.
  - specialize (Hnative m eq_refl). case_bool_decide.
    + revert Hnative. generalize (navigationStart w) m. intros. qc_lra.
    + etrans; [|apply (critical_scan_mono _ (false, _))]. simpl.
      revert Hstart. generalize (navigationStart w) (responseStart w). intros. qc_lra.
  - etrans; [|apply (critical_scan_mono _ (false, _))]. simpl.
    revert Hstart. generalize (navigationStart w) (responseStart w). intros. qc_lra.
Qed.

(** X9. When the browser's first-paint time, if it reports one, and the
    response start are not before the navigation start, the estimate is
    not negative, whatever Chrome reports and whatever the head and the
    resource list hold. *)
Theorem GetFirstPaint_nonneg (w : Window) (requests : list ResourceEntry) :
  (∀ m, msFirstPaint w = Some m → navigationStart w ≤ m) →
  navigationStart w ≤ responseStart w →
  0 ≤ GetFirstPaint w requests.
Proof. intros Hnative Hstart. by apply firstPaint_nonneg. Qed.

Lemma GetFirstPaint_nonneg_witness :
  0 ≤ GetFirstPaint Pages.native_and_chrome [] ∧
  0 ≤ GetFirstPaint Pages.critical_chain
        [entry "http://h/A.js" (Qz 120) "script"].
Proof.
  split.
  - apply (GetFirstPaint_nonneg Pages.native_and_chrome []); [|by vm_compute].
    intros m [= <-]. by vm_compute.
  - apply (GetFirstPaint_nonneg Pages.critical_chain); [|by vm_compute].
    intros m Hm. discriminate Hm.
Defined.

(** X10. A Chrome request time that is later than the Chrome first-paint
    time switches the Chrome signal off, even when the start-of-load time
    would pass the check: the estimate is then the browser's own signal
    or, without one, the fallback. *)
Theorem GetFirstPaint_late_requestTime (w : Window) (requests : list ResourceEntry)
    (chromeTimes : ChromeTimes) (firstPaintTime requestTime : Qc) :
  chrome_loadTimes w = Some chromeTimes →
  ct_firstPaintTime chromeTimes = Some firstPaintTime →
  ct_requestTime chromeTimes = Some requestTime →
  firstPaintTime < requestTime → requestTime ≠ 0 →
  vendor_signal w = None ∧
  GetFirstPaint w requests =
    match native_signal w with
    | Some n => n
    | None => firstPaint_fallback w requests
    end.
Proof.
  intros Hct Hfp Hrt Hlate Hnz.
  assert (vendor_signal w = None) as Hvendor.
  { unfold vendor_signal, firstPaint_chrome, chrome_startTime.
    rewrite Hct, Hfp, Hrt. simpl. rewrite (bool_decide_eq_true_2 _ Hnz).
    case_bool_decide; [|done].
    by rewrite bool_decide_eq_false_2 by by apply Qclt_not_le. }
  split; [done|]. by rewrite GetFirstPaint_cases, Hvendor.
Qed.

(** Chrome times with a start of load at 2, a first paint at 10 and a
    request at 20. *)
Definition chrome_late_request : ChromeTimes :=
  {| ct_firstPaintTime := Some (Qz 10); ct_startLoadTime := Some (Qz 2);
     ct_requestTime := Some (Qz 20) |}.

Lemma GetFirstPaint_late_requestTime_witness :
  ct_startLoadTime chrome_late_request = Some (Qz 2) ∧
  vendor_signal (Pages.with_signals None (Some chrome_late_request)) = None ∧
  GetFirstPaint (Pages.with_signals None (Some chrome_late_request)) []
  = firstPaint_fallback (Pages.with_signals None (Some chrome_late_request)) [].
Proof.
  split; [reflexivity|].
  apply (GetFirstPaint_late_requestTime
           (Pages.with_signals None (Some chrome_late_request)) []
           chrome_late_request (Qz 10) (Qz 20));
    first [reflexivity | by vm_compute | qc_neq].
Defined.

(** ** From resource times to paint times *)

(** X11. The time at which a rectangle counts as painted, from the
    resource list: with [t] the completion time of the last entry named
    like the rectangle's URL (0 without such an entry), it is the later
    of first paint and [t], except that a [t] of 0 always gives first
    paint, also when first paint is negative. *)
Theorem paint_tm_of_requests (requests : list ResourceEntry) (r : Rect)
    (firstPaint : Qc) :
  let t := default 0 (re_responseEnd <$> last (entries_named (r_url r) requests)) in
  let tm := paint_tm firstPaint (set_tm (timings_of requests) r) in
  (t = 0 → tm = firstPaint) ∧
  (t ≠ 0 ∨ 0 ≤ firstPaint → tm = JS.max firstPaint t).
Proof.
  intros t tm. subst tm. unfold paint_tm, set_tm. simpl.
  rewrite timings_of_lookup. fold t.
  assert (match re_responseEnd <$> last (entries_named (r_url r) requests) with
          | Some t0 => t0 | None => 0 end = t) as -> by (subst t; by destruct (_ <$> _)).
  generalize t. clear t. intros t. unfold JS.max. split.
  - intros ->. by rewrite bool_decide_eq_false_2 by auto.
  - intros Ht. case_bool_decide as Hnz; simpl.
    + case_bool_decide as Hlt; case_decide as Hle; try done; qc_lra.
    + subst t. destruct Ht as [?|Hfp]; [done|].
      case_decide; [qc_lra|done].
Qed.

(** ** The buckets of [paints] *)

Lemma paints_add_comm tm1 area1 tm2 area2 (paints : gmap Qc Qc) :
  paints_add tm1 area1 (paints_add tm2 area2 paints)
  = paints_add tm2 area2 (paints_add tm1 area1 paints).
Proof.
  apply map_eq. intros k. rewrite !paints_add_lookup.
  repeat case_decide; subst; try done; simpl; f_equal; ring.
Qed.

Lemma paint_step_comm firstPaint st r1 r2 :
  paint_step firstPaint (paint_step firstPaint st r1) r2
  = paint_step firstPaint (paint_step firstPaint st r2) r1.
Proof.
  destruct st as [paints total]. unfold paint_step. f_equal.
  - apply paints_add_comm.
  - ring.
Qed.

Lemma paint_loop_Permutation firstPaint rects rects' st :
  rects ≡ₚ rects' →
  foldl (paint_step firstPaint) st rects = foldl (paint_step firstPaint) st rects'.
Proof.
  intros Hperm. revert st.
  induction Hperm as [|r l1 l2 _ IH|r1 r2 l|l1 l2 l3 _ IH1 _ IH2]; intros st; simpl.
  - done.
  - apply IH.
  - by rewrite paint_step_comm.
  - by rewrite IH1.
Qed.

(** X12. The order of the rectangles does not matter: a rearrangement of
    [rects] gives the same [progress], hence the same speed index. *)
Theorem CalculateVisualProgress_Permutation (w : Window) (rects rects' : list Rect)
    (firstPaint : Qc) :
  rects ≡ₚ rects' →
  CalculateVisualProgress w rects firstPaint
  = CalculateVisualProgress w rects' firstPaint.
Proof.
  intros Hperm. unfold CalculateVisualProgress, paints_total.
  by rewrite (paint_loop_Permutation firstPaint rects rects' _ Hperm).
Qed.

Lemma CalculateVisualProgress_Permutation_witness :
  CalculateVisualProgress Pages.two_images
    [rect_at "http://h/a.png" Pages.upper_half (Qz 50) (Qz 100);
     rect_at "http://h/b.png" Pages.lower_half (Qz 50) (Qz 300)] (Qz 100)
  = CalculateVisualProgress Pages.two_images
      [rect_at "http://h/b.png" Pages.lower_half (Qz 50) (Qz 300);
       rect_at "http://h/a.png" Pages.upper_half (Qz 50) (Qz 100)] (Qz 100).
Proof.
  apply (CalculateVisualProgress_Permutation Pages.two_images).
  apply Permutation_swap.
Defined.

(** Sum of the areas of the rectangles. *)
Definition rects_area (rects : list Rect) : Qc := foldr (λ r s, r_area r + s) 0 rects.

(** The paint area of the page background (lines 179-182). *)
Definition background_area (w : Window) (rects : list Rect) : Qc :=
  if bool_decide (0 < page_pixels w)
  then JS.max (page_pixels w - rects_area rects) 0 * pageBackgroundWeight
  else 0.

Lemma paint_loop_total firstPaint rects st :
  (foldl (paint_step firstPaint) st rects).2 = st.2 + rects_area rects.
Proof.
  revert st. induction rects as [|r rects IH]; intros [paints total]; simpl.
  - ring.
  - rewrite IH. simpl. ring.
Qed.

Lemma paints_total_formula w rects firstPaint :
  (paints_total w rects firstPaint).2 = rects_area rects + background_area w rects.
Proof.
  unfold paints_total, paint_background, background_area.
  pose proof (paint_loop_total firstPaint rects ({[0 := 0]}, 0)) as Hloop.
  destruct (foldl _ _ rects) as [paints total]. simpl in Hloop.
  rewrite Qcplus_0_l in Hloop. subst total.
  case_bool_decide; simpl; [done|ring].
Qed.

Lemma accumulate_areas total accumulated l :
  (λ p, (p_tm p, p_area p)) <$> accumulate total accumulated l = l.
Proof.
  revert accumulated. induction l as [|[tm area] l IH]; intros accumulated;
    simpl; [done|]. by rewrite IH.
Qed.

Lemma accumulate_progress_le total accumulated l p :
  0 < total → Forall (λ x, 0 ≤ x.2) l →
  p ∈ accumulate total accumulated l →
  p_progress p ≤ (accumulated + sum_areas l) / total.
Proof.
  intros Htotal Hl. revert accumulated.
  induction Hl as [|x l Hx Hl IH]; intros accumulated.
  - by intros ?%not_elem_of_nil.
  - destruct x as [tm area]. simpl in *. rewrite elem_of_cons.
    intros [-> | Hp]; simpl.
    + apply Qc_div_mono; [done|].
      pose proof (sum_areas_nonneg l Hl) as Hsum. revert Hsum.
      generalize (sum_areas l) accumulated area. intros. qc_lra.
    + etrans; [by apply IH|]. apply Qc_div_mono; [done|].
      generalize (sum_areas l) accumulated area. intros. qc_lra.
Qed.

(** Sum of the areas of the entries of [progress]. *)
Definition progress_area (progress : list Progress) : Qc :=
  foldr (λ p s, p_area p + s) 0 progress.

Lemma progress_area_accumulate total accumulated l :
  progress_area (accumulate total accumulated l) = sum_areas l.
Proof.
  revert accumulated. induction l as [|[tm area] l IH]; intros accumulated;
    simpl; [done|]. by rewrite IH.
Qed.

(** X13. [total] is the sum of the areas of the rectangles plus the
    background area, whatever the times.  When it is not 0, the areas of
    the entries of [progress] add up to it, and every [progress] value
    lies between 0 and 1. *)
Theorem progress_normalised (w : Window) (requests : list ResourceEntry)
    (firstPaint : Qc) :
  let rects := timed_rects w requests in
  let progress := CalculateVisualProgress w rects firstPaint in
  let total := (paints_total w rects firstPaint).2 in
  total = rects_area rects + background_area w rects ∧
  (total ≠ 0 → progress_area progress = total) ∧
  (∀ p, p ∈ progress → 0 ≤ p_progress p ≤ 1).
Proof.
  intros rects progress total. subst rects progress total.
  pose proof (timed_rects_nonneg w requests) as Hrects.
  pose proof (paints_total_inv w _ firstPaint Hrects) as Hinv.
  pose proof (paints_total_nonneg w _ firstPaint Hrects) as Hnn.
  split; [apply paints_total_formula|].
  rewrite CalculateVisualProgress_unfold.
  set (st := paints_total w (timed_rects w requests) firstPaint) in *.
  case_bool_decide as Htotal.
  - assert (0 < st.2) as Hpos by (revert Hnn Htotal; generalize st.2; intros; qc_lra).
    pose proof (paints_entries_nonneg firstPaint st Hinv) as Hentries.
    split.
    + intros _. rewrite progress_area_accumulate, sorted_paints_sum.
      symmetry. apply (inv_total _ _ Hinv).
    + intros p Hp. split.
      * rewrite <-(Qc_div_0 st.2).
        by apply (accumulate_progress_ge st.2 0 (sorted_paints st.1)).
      * pose proof (accumulate_progress_le st.2 0 _ p Hpos Hentries Hp) as Hle.
        rewrite sorted_paints_sum, <-(inv_total _ _ Hinv), Qcplus_0_l in Hle.
        by rewrite Qc_div_diag in Hle.
  - split; [done|]. by intros p ?%not_elem_of_nil.
Qed.

Lemma progress_normalised_witness :
  let rects := timed_rects Pages.two_images Pages.two_images_requests in
  let progress := CalculateVisualProgress Pages.two_images rects (Qz 100) in
  (paints_total Pages.two_images rects (Qz 100)).2 ≠ 0 ∧
  progress_area progress = (paints_total Pages.two_images rects (Qz 100)).2 ∧
  (∀ p, p ∈ progress → 0 ≤ p_progress p ≤ 1).
Proof.
  intros rects progress.
  assert ((paints_total Pages.two_images rects (Qz 100)).2 ≠ 0) as Hnz.
  { subst rects. rewrite two_images_total. qc_neq. }
  destruct (progress_normalised Pages.two_images Pages.two_images_requests (Qz 100))
    as (_ & Harea & Hvalues).
  split; [exact Hnz|]. split; [exact (Harea Hnz)|exact Hvalues].
Defined.

(** The times a bucket can have: 0, first paint, or the time of a
    rectangle that is later than first paint. *)
Definition bucket_time (firstPaint : Qc) (rects : list Rect) (tm : Qc) : Prop :=
  tm = 0 ∨ tm = firstPaint ∨ ∃ r, r ∈ rects ∧ r_tm r = Some tm ∧ firstPaint < tm.

Lemma paint_loop_keys firstPaint rects st (P : Qc → Prop) :
  (∀ tm, is_Some (st.1 !! tm) → P tm) →
  ∀ tm, is_Some ((foldl (paint_step firstPaint) st rects).1 !! tm) →
    P tm ∨ ∃ r, r ∈ rects ∧ paint_tm firstPaint r = tm.
Proof.
  revert st P. induction rects as [|r rects IH]; intros [paints total] P Hst tm;
    simpl; [by left; apply Hst|].
  intros Htm.
  destruct (IH (paints_add (paint_tm firstPaint r) (r_area r) paints, total + r_area r)
              (λ tm, P tm ∨ paint_tm firstPaint r = tm)) with tm
    as [[?|?]|(r' & ? & ?)]; [|done|by left|..].
  - intros tm'. simpl. rewrite paints_add_lookup.
    case_decide; [by right|]. intros ?. left. by apply Hst.
  - right. exists r. split; [by left|done].
  - right. exists r'. split; [by right|done].
Qed.

Lemma paints_total_keys w rects firstPaint tm :
  is_Some ((paints_total w rects firstPaint).1 !! tm) →
  bucket_time firstPaint rects tm.
Proof.
  unfold paints_total.
  pose proof (paint_loop_keys firstPaint rects ({[0 := 0]}, 0) (λ tm, tm = 0)) as Hloop.
  destruct (foldl _ _ rects) as [paints total]. simpl in Hloop.
  assert (∀ tm, is_Some (paints !! tm) → bucket_time firstPaint rects tm) as Hkeys.
  { intros tm' Htm'. destruct (Hloop) with tm' as [?|(r & Hr & Hpaint)]; [|done|by left|].
    { intros tm'' [v Hv]. by apply lookup_singleton_Some in Hv as [<- _]. }
    destruct (paint_tm_cases firstPaint r) as [Heq | (t & Ht & _ & Hlt & Heq)].
    - right. left. congruence.
    - right. right. exists r. rewrite <-Hpaint, Heq. done. }
  unfold paint_background. case_bool_decide; simpl; [|by apply Hkeys].
  rewrite paints_add_lookup. case_decide as Heq; [|by apply Hkeys].
  intros _. right. by left.
Qed.

Lemma progress_bucket_time w rects firstPaint p :
  p ∈ CalculateVisualProgress w rects firstPaint →
  bucket_time firstPaint rects (p_tm p).
Proof.
  rewrite CalculateVisualProgress_unfold. case_bool_decide; [|by intros ?%not_elem_of_nil].
  intros Hp%accumulate_elem%sorted_paints_elem.
  apply (paints_total_keys w). by eexists.
Qed.

Lemma progress_times_or w rects firstPaint p :
  p ∈ CalculateVisualProgress w rects firstPaint →
  p_tm p = 0 ∨ firstPaint ≤ p_tm p.
Proof.
  intros Hp. destruct (progress_bucket_time w rects firstPaint p Hp)
    as [?|[->|(r & _ & _ & ?)]]; [by left|by right|].
  right. by apply Qclt_le_weak.
Qed.

(** X14. Every entry of [progress] has the time 0, the first-paint time,
    or the time of a rectangle whose resource was complete after first
    paint: no entry lies before first paint, but for the one of time 0. *)
Theorem progress_times (w : Window) (rects : list Rect) (firstPaint : Qc)
    (p : Progress) :
  p ∈ CalculateVisualProgress w rects firstPaint →
  bucket_time firstPaint rects (p_tm p) ∧ (p_tm p = 0 ∨ firstPaint ≤ p_tm p).
Proof.
  intros Hp. split.
  - by apply (progress_bucket_time w).
  - by apply (progress_times_or w rects).
Qed.

Lemma progress_times_witness :
  bucket_time (Qz 100)
    (timed_rects Pages.two_images Pages.two_images_requests) (Qz 300) ∧
  (Qz 300 = 0 ∨ Qz 100 ≤ Qz 300).
Proof.
  apply (progress_times Pages.two_images
           (timed_rects Pages.two_images Pages.two_images_requests) (Qz 100)
           (point (Qz 300) (Qz 50) 1)).
  rewrite two_images_progress. right. right. left.
Defined.

(** ** Bounds on the speed index *)

Lemma integrate_step_mono st p : st.1.1 ≤ (integrate_step st p).1.1.
Proof.
  destruct st as [[SpeedIndex lastTime] lastProgress]. simpl.
  generalize (p_tm p - lastTime). intros elapsed.
  repeat case_bool_decide; simpl; try done. qc_nra.
Qed.

Lemma integrate_mono st progress : st.1.1 ≤ integrate st progress.
Proof.
  revert st. induction progress as [|p progress IH]; intros st; [done|].
  rewrite integrate_cons. etrans; [apply integrate_step_mono|apply IH].
Qed.

(** X15. Whatever the entries of a non-empty [progress] are,
    [CalculateSpeedIndex] yields a number that is not negative: a step
    adds to the sum only a positive time weighted by a positive rest. *)
Theorem CalculateSpeedIndex_nonneg (progress : list Progress) (firstPaint : Qc) :
  progress ≠ [] → 0 ≤ CalculateSpeedIndex progress firstPaint.
Proof.
  intros Hne. rewrite CalculateSpeedIndex_nonempty by done.
  apply (integrate_mono (0, 0, 0)).
Qed.

Lemma CalculateSpeedIndex_nonneg_witness :
  0 ≤ CalculateSpeedIndex [point (Qz (-100)) (Qz 10) 1; point 0 0 1] (Qz (-100)).
Proof. by apply CalculateSpeedIndex_nonneg. Defined.

Lemma integrate_upper progress SpeedIndex lastTime lastProgress :
  0 ≤ lastProgress →
  Forall (λ p, 0 ≤ p_progress p) progress →
  StronglySorted time_lt progress →
  Forall (λ p, lastTime ≤ p_tm p) progress →
  integrate (SpeedIndex, lastTime, lastProgress) progress
  ≤ SpeedIndex + (default lastTime (p_tm <$> last progress) - lastTime).
Proof.
  intros Hlp Hvalues Hsorted. revert SpeedIndex lastTime lastProgress Hlp.
  induction Hsorted as [|p progress _ IH Hp]; intros SpeedIndex lastTime lastProgress Hlp Hlast.
  - unfold integrate. simpl. qc_lra.
  - apply Forall_cons in Hvalues as [Hv Hvalues].
    apply Forall_cons in Hlast as [Hlt _].
    rewrite integrate_cons. unfold integrate_step.
    etrans; [apply IH; [done..|]|].
    { eapply Forall_impl; [exact Hp|]. intros q. apply Qclt_le_weak. }
    rewrite last_cons.
    assert (default lastTime
              (p_tm <$> match last progress with Some y => Some y | None => Some p end)
            = default (p_tm p) (p_tm <$> last progress)) as -> by by destruct (last _).
    revert Hlt Hlp. generalize (default (p_tm p) (p_tm <$> last progress)) (p_tm p).
    intros tl t Hlt Hlp.
    repeat case_bool_decide; simpl; try qc_lra.
    assert ((1 - lastProgress) * (t - lastTime) ≤ t - lastTime); [|qc_lra].
    assert (0 ≤ t - lastTime) as Hel by qc_lra. revert Hel.
    generalize (t - lastTime). intros. qc_nra.
Qed.

(** X16. When first paint is not negative, the speed index lies between
    the first-paint time and the time of the last entry of [progress]. *)
Theorem SpeedIndex_between_first_and_last_paint (w : Window)
    (requests : list ResourceEntry) (firstPaint : Qc) :
  0 ≤ firstPaint →
  let progress := CalculateVisualProgress w (timed_rects w requests) firstPaint in
  firstPaint ≤ CalculateSpeedIndex progress firstPaint ∧
  (∀ p, last progress = Some p → CalculateSpeedIndex progress firstPaint ≤ p_tm p).
Proof.
  intros Hfp progress.
  pose proof (timed_rects_nonneg w requests) as Hrects.
  pose proof (paints_total_inv w _ firstPaint Hrects) as Hinv.
  pose proof (paints_total_nonneg w _ firstPaint Hrects) as Hnn.
  assert (∀ p, p ∈ progress → p_tm p = 0 ∨ firstPaint ≤ p_tm p) as Htimes.
  { intros p Hp. by apply (progress_times_or w (timed_rects w requests)). }
  subst progress. revert Htimes. rewrite CalculateVisualProgress_unfold.
  set (st := paints_total w (timed_rects w requests) firstPaint) in *.
  case_bool_decide as Htotal; [|done].
  assert (0 < st.2) as Hpos by (revert Hnn Htotal; generalize st.2; intros; qc_lra).
  set (progress := accumulate st.2 0 (sorted_paints st.1)).
  intros Htimes.
  assert (progress ≠ []) as Hne.
  { intros Hnil%accumulate_nil_inv. by apply (paints_nonempty firstPaint st). }
  rewrite CalculateSpeedIndex_nonempty by done. split.
  - destruct (decide (firstPaint = 0)) as [->|Hnz].
    { apply (integrate_mono (0, 0, 0)). }
    destruct (integrate_without_zero st.1 st.2 (inv_total _ _ Hinv) Htotal
                (inv_zero_empty _ _ Hinv Hnz)) as [Hne' Heq].
    fold progress in Hne', Heq. rewrite <-Heq.
    destruct (without_zero progress) as [|q rest] eqn:Hwz; [done|].
    assert (q ∈ without_zero progress) as Hq by (rewrite Hwz; by left).
    apply list_elem_of_filter in Hq as [Hqnz Hq].
    destruct (Htimes q Hq) as [?|Hqfp]; [done|].
    rewrite integrate_cons. etrans; [|apply integrate_mono].
    unfold integrate_step. simpl.
    assert (0 < p_tm q - 0) as Hel
      by (revert Hfp Hnz Hqfp; generalize firstPaint (p_tm q); intros; qc_lra).
    rewrite (bool_decide_eq_true_2 _ Hel). simpl.
    revert Hqfp. generalize firstPaint (p_tm q). intros. qc_lra.
  - intros p Hlast.
    pose proof (integrate_upper progress 0 0 0) as Hupper.
    rewrite Hlast in Hupper. simpl in Hupper.
    etrans; [apply Hupper|].
    + done.
    + apply Forall_forall. intros q Hq. rewrite <-(Qc_div_0 st.2).
      apply (accumulate_progress_ge st.2 0 (sorted_paints st.1));
        [done|by apply (paints_entries_nonneg firstPaint)|done].
    + apply accumulate_time_sorted, sorted_paints_sorted.
    + apply Forall_forall. intros q Hq.
      destruct (Htimes q Hq) as [Hz|?]; [rewrite Hz; apply Qcle_refl|].
      by trans firstPaint.
    + generalize (p_tm p). intros. qc_lra.
Qed.

Lemma SpeedIndex_between_first_and_last_paint_witness :
  let progress :=
    CalculateVisualProgress Pages.two_images
      (timed_rects Pages.two_images Pages.two_images_requests) (Qz 100) in
  last progress = Some (point (Qz 300) (Qz 50) 1) ∧
  Qz 100 ≤ CalculateSpeedIndex progress (Qz 100) ∧
  CalculateSpeedIndex progress (Qz 100) ≤ Qz 300.
Proof.
  intros progress.
  assert (last progress = Some (point (Qz 300) (Qz 50) 1)) as Hlast.
  { subst progress. by rewrite two_images_progress. }
  destruct (SpeedIndex_between_first_and_last_paint Pages.two_images
              Pages.two_images_requests (Qz 100)) as [Hlow Hup]; [by vm_compute|].
  split; [exact Hlast|]. split; [exact Hlow|exact (Hup _ Hlast)].
Defined.

(** ** Pages whose resources are complete at first paint *)

Lemma timed_rects_complete w requests firstPaint :
  Forall (λ e, re_responseEnd e ≤ firstPaint) requests →
  Forall (λ r, paint_tm firstPaint r = firstPaint) (timed_rects w requests).
Proof.
  intros Hrequests. unfold timed_rects, GetRectTimings.
  apply Forall_fmap, Forall_forall. intros r _. simpl.
  rewrite Forall_forall in Hrequests.
  destruct (set_tm_cases requests r) as [(e & He & _ & Htm) | [_ Htm]];
    unfold paint_tm; rewrite Htm; simpl.
  - rewrite (bool_decide_eq_false_2 (firstPaint < re_responseEnd e)).
    + by rewrite andb_false_r.
    + by apply Qcle_not_lt, Hrequests.
  - done.
Qed.

(** X17. When every resource was complete by the first-paint estimate,
    and that estimate is not negative, the script returns the estimate
    itself: nothing is painted later than first paint. *)
Theorem RUMSpeedIndex_all_complete_at_first_paint (w : Window)
    (requests : list ResourceEntry) :
  resources w = Some requests →
  0 ≤ GetFirstPaint w requests →
  Forall (λ e, re_responseEnd e ≤ GetFirstPaint w requests) requests →
  RUMSpeedIndex w = Some (GetFirstPaint w requests).
Proof.
  intros Hres Hfp Hrequests. unfold RUMSpeedIndex. rewrite Hres. simpl. f_equal.
  apply single_bucket_SpeedIndex; [apply timed_rects_nonneg| |done].
  by apply timed_rects_complete.
Qed.

(** The page of two images with both images complete before the response
    of the document starts (they come from a cache). *)
Definition cached_images : Window := {|
  innerWidth := Some (Qz 10); innerHeight := Some (Qz 10);
  clientWidth := Qz 10; clientHeight := Qz 10;
  elements := elements Pages.two_images;
  head := [];
  navigationStart := Qz 1000; responseStart := Qz 1100;
  msFirstPaint := None; chrome_loadTimes := None;
  resources := Some [entry "http://h/a.png" (Qz 40) "img";
                     entry "http://h/b.png" (Qz 80) "css"]
|}.

Lemma RUMSpeedIndex_all_complete_at_first_paint_witness :
  RUMSpeedIndex cached_images
  = Some (GetFirstPaint cached_images
            [entry "http://h/a.png" (Qz 40) "img"; entry "http://h/b.png" (Qz 80) "css"]).
Proof.
  apply (RUMSpeedIndex_all_complete_at_first_paint cached_images); [reflexivity| |].
  - by vm_compute.
  - repeat constructor; by vm_compute.
Defined.

(** ** The result of the script *)

(** X18. On a page whose timings are in order the script never returns
    a negative number: it returns [undefined] or a number that is at
    least 0. *)
Theorem RUMSpeedIndex_nonneg (w : Window) (SpeedIndex : Qc) :
  (∀ m, msFirstPaint w = Some m → navigationStart w ≤ m) →
  navigationStart w ≤ responseStart w →
  RUMSpeedIndex w = Some SpeedIndex →
  0 ≤ SpeedIndex.
Proof.
  intros Hnative Hstart. unfold RUMSpeedIndex.
  destruct (resources w) as [requests|]; [|done]. simpl. intros [= <-].
  pose proof (firstPaint_nonneg w requests (conj Hnative Hstart)) as Hfp.
  destruct (CalculateVisualProgress w _ _) as [|p progress] eqn:Hprogress; [done|].
  apply (integrate_mono (0, 0, 0)).
Qed.

Lemma RUMSpeedIndex_nonneg_witness :
  RUMSpeedIndex Pages.two_images = Some (Qz 200) ∧ 0 ≤ Qz 200.
Proof.
  split; [exact two_images_SpeedIndex|].
  apply (RUMSpeedIndex_nonneg Pages.two_images (Qz 200)).
  - intros m Hm. discriminate Hm.
  - by vm_compute.
  - exact two_images_SpeedIndex.
Defined.
